(** * goquery traversal: a shallow embedding of [traversal.go]

    The document tree is a pointer structure ([*html.Node] with [Parent],
    [FirstChild], [PrevSibling], [NextSibling] links).  It is embedded as
    a heap: a node pointer is a number, [nil] is [None], and the tree is
    a function from pointers to node records.  Loops that chase pointers
    take fuel; a nil dereference or a panic of a collaborator is the
    outcome [Panic].  A slice [[]*html.Node] is a list of non-nil
    pointers: the slices of a Selection hold nodes of a parsed tree. *)

From Stdlib Require Import List Arith Bool Lia.
From Stdlib Require String.
Import String.StringSyntax.
Delimit Scope string_scope with string.
Import ListNotations.

Set Warnings "-register-all".

(** ** Outcomes of running Go code *)

Inductive res (A : Type) : Type :=
| Ok (a : A)
| Panic
| OutOfFuel.

Arguments Ok {A} a.
Arguments Panic {A}.
Arguments OutOfFuel {A}.

Definition bind {A B : Type} (m : res A) (k : A -> res B) : res B :=
  match m with
  | Ok a => k a
  | Panic => Panic
  | OutOfFuel => OutOfFuel
  end.

Notation "x <- m ;; k" := (bind m (fun x => k))
  (at level 61, m at next level, right associativity).

(** ** Nodes ([html.Node], the fields traversal.go reads) *)

Definition ptr := nat.

Inductive NodeType : Type :=
| ErrorNode | TextNode | DocumentNode | ElementNode | CommentNode | DoctypeNode.

Record Node : Type := mkNode {
  Parent : option ptr;
  FirstChild : option ptr;
  PrevSibling : option ptr;
  NextSibling : option ptr;
  Type_ : NodeType
}.

Definition isElementNode (t : NodeType) : bool :=
  match t with ElementNode => true | _ => false end.

(** [p == q] on possibly-nil node pointers. *)
Definition ptr_eq (p q : option ptr) : bool :=
  match p, q with
  | None, None => true
  | Some a, Some b => Nat.eqb a b
  | _, _ => false
  end.

Definition is_nil (p : option ptr) : bool :=
  match p with None => true | Some _ => false end.

(** Dereferencing a possibly-nil pointer. *)
Definition deref (p : option ptr) : res ptr :=
  match p with Some a => Ok a | None => Panic end.

(** ** Selections *)

Inductive Selection : Type := mkSelection {
  Nodes : list ptr;
  document : option nat;
  prevSel : option Selection
}.

(** A compiled cascadia selector is a predicate on nodes. *)
Definition Selector := ptr -> bool.

(** Sibling type, [iota - 3] onwards: [siblingPrevUntil = -3], ...,
    [siblingAll = 0], ..., [siblingAllIncludingNonElements = 4].  The
    type is closed over the eight constants, so the [default] branch of
    the iterator ([panic("Invalid sibling type.")]) has no counterpart. *)
Inductive siblingType : Type :=
| siblingPrevUntil
| siblingPrevAll
| siblingPrev
| siblingAll
| siblingNext
| siblingNextAll
| siblingNextUntil
| siblingAllIncludingNonElements.

Definition isUntil (st : siblingType) : bool :=
  match st with siblingNextUntil | siblingPrevUntil => true | _ => false end.

Definition isSingle (st : siblingType) : bool :=
  match st with siblingNext | siblingPrev => true | _ => false end.

Definition isAllIncludingNonElements (st : siblingType) : bool :=
  match st with siblingAllIncludingNonElements => true | _ => false end.

(** ** Slice helpers of the package that traversal.go calls *)

(** Modelled from the spec: [isInSlice] lives outside traversal.go;
    membership of a node reference, by identity, in a slice. *)
Definition isInSlice (slice : list ptr) (node : ptr) : bool :=
  existsb (Nat.eqb node) slice.

(** Modelled from the spec: [appendWithoutDuplicates] lives outside
    traversal.go.  Section 4.2: a candidate already present (by identity)
    anywhere in the accumulated result is silently dropped, otherwise
    appended at the end. *)
Fixpoint appendWithoutDuplicates (target nodes : list ptr) : list ptr :=
  match nodes with
  | [] => target
  | n :: rest =>
      appendWithoutDuplicates
        (if isInSlice target n then target else target ++ [n]) rest
  end.

(** Modelled from the spec: [pushStack] lives outside traversal.go; it
    wraps the nodes in a new Selection whose previous selection is the
    source one (comment of [filterAndPush]). *)
Definition pushStack (fromSel : Selection) (nodes : list ptr) : Selection :=
  mkSelection nodes (document fromSel) (Some fromSel).

(** Modelled from the spec: [newSingleSelection] lives outside
    traversal.go; a Selection holding exactly one node. *)
Definition newSingleSelection (node : ptr) (d : option nat) : Selection :=
  mkSelection [node] d None.

(** ** mapNodes *)

Fixpoint mapNodes_from (i : nat) (nodes : list ptr)
    (f : nat -> ptr -> res (list ptr)) (result : list ptr) : res (list ptr) :=
  match nodes with
  | [] => Ok result
  | n :: rest =>
      vals <- f i n ;;
      mapNodes_from (S i) rest f
        (if 0 <? length vals then appendWithoutDuplicates result vals
         else result)
  end.

Definition mapNodes (nodes : list ptr) (f : nat -> ptr -> res (list ptr))
  : res (list ptr) :=
  mapNodes_from 0 nodes f [].

(** ** Specification vocabulary for the merge *)

Definition differs (x : ptr) : ptr -> bool := fun y => negb (Nat.eqb y x).

(** Every duplicate dropped at other than its first occurrence. *)
Fixpoint keep_first (l : list ptr) : list ptr :=
  match l with
  | [] => []
  | x :: r => x :: filter (differs x) (keep_first r)
  end.

(** The per-source expansions, in source order. *)
Fixpoint expansions_from (i : nat) (g : nat -> ptr -> list ptr)
    (nodes : list ptr) : list (list ptr) :=
  match nodes with
  | [] => []
  | n :: rest => g i n :: expansions_from (S i) g rest
  end.

Definition expansions (g : nat -> ptr -> list ptr) (nodes : list ptr) :=
  expansions_from 0 g nodes.

(** ** The traversal engine *)

Section Code.

(** The document tree: what each non-nil node pointer points to. *)
Variable doc : ptr -> Node.

(** Collaborators that live outside traversal.go, taken as parameters:
    [Selection.Is] and [Selection.IsNodes] (they may panic on a selector
    that does not compile), [sliceContains], and cascadia's
    [MustCompile] and [Selector.MatchAll]; [Selector.Match] is the
    application of the compiled selector. *)
Variable Is : Selection -> String.string -> res bool.
Variable IsNodes : Selection -> list ptr -> res bool.
Variable sliceContains : list ptr -> ptr -> bool.
Variable MustCompile : String.string -> res Selector.
Variable MatchAll : Selector -> ptr -> list ptr.

(** [s != ""] *)
Definition nonEmpty (s : String.string) : bool :=
  negb (String.eqb s String.EmptyString).

(** One pass through the [switch] of the iterator closure: the next raw
    position from [cur] in the direction of [st]. *)
Definition iter_switch (parent : option ptr) (st : siblingType)
    (skipNode cur : option ptr) : res (option ptr) :=
  match st with
  | siblingAll | siblingAllIncludingNonElements =>
      match cur with
      | None =>
          p <- deref parent ;;
          let ret := FirstChild (doc p) in
          if ptr_eq ret skipNode && negb (is_nil skipNode)
          then s <- deref skipNode ;; Ok (NextSibling (doc s))
          else Ok ret
      | Some c =>
          let ret := NextSibling (doc c) in
          if ptr_eq ret skipNode && negb (is_nil skipNode)
          then s <- deref skipNode ;; Ok (NextSibling (doc s))
          else Ok ret
      end
  | siblingPrev | siblingPrevAll | siblingPrevUntil =>
      match cur with
      | None => s <- deref skipNode ;; Ok (PrevSibling (doc s))
      | Some c => Ok (PrevSibling (doc c))
      end
  | siblingNext | siblingNextAll | siblingNextUntil =>
      match cur with
      | None => s <- deref skipNode ;; Ok (NextSibling (doc s))
      | Some c => Ok (NextSibling (doc c))
      end
  end.

(** The iterator closure [iter] of [getChildrenWithSiblingType]. *)
Fixpoint iter (fuel : nat) (parent : option ptr) (st : siblingType)
    (skipNode cur : option ptr) : res (option ptr) :=
  match fuel with
  | O => OutOfFuel
  | S fuel' =>
      ret <- iter_switch parent st skipNode cur ;;
      match ret with
      | None => Ok None
      | Some r =>
          if isElementNode (Type_ (doc r)) || isAllIncludingNonElements st
          then Ok ret
          else iter fuel' parent st skipNode ret
      end
  end.

(** The [for c := iter(nil); c != nil; c = iter(c)] loop, entered with
    the current [c] and the [result] accumulated so far.  A nil
    [untilFunc] is [None]; calling it panics. *)
Fixpoint getChildrenWithSiblingType_loop (fuel : nat) (parent : option ptr)
    (st : siblingType) (skipNode : option ptr)
    (untilFunc : option (ptr -> res bool))
    (c : option ptr) (result : list ptr) : res (list ptr) :=
  match fuel with
  | O => OutOfFuel
  | S fuel' =>
      match c with
      | None => Ok result
      | Some n =>
          stop <- (if isUntil st
                   then match untilFunc with
                        | Some f => f n
                        | None => Panic
                        end
                   else Ok false) ;;
          if stop then Ok result
          else
            let result := result ++ [n] in
            if isSingle st then Ok result
            else
              c' <- iter fuel' parent st skipNode c ;;
              getChildrenWithSiblingType_loop fuel' parent st skipNode
                untilFunc c' result
      end
  end.

Definition getChildrenWithSiblingType (fuel : nat) (parent : option ptr)
    (st : siblingType) (skipNode : option ptr)
    (untilFunc : option (ptr -> res bool)) : res (list ptr) :=
  c <- iter fuel parent st skipNode None ;;
  getChildrenWithSiblingType_loop fuel parent st skipNode untilFunc c [].

(** The until test function [f] built by [getSiblingNodes]. *)
Definition untilTest (untilSelector : String.string) (untilNodes : list ptr)
  : ptr -> res bool :=
  fun n =>
    if nonEmpty untilSelector
    then Is (newSingleSelection n None) untilSelector
    else if 0 <? length untilNodes
    then IsNodes (newSingleSelection n None) untilNodes
    else Ok false.

Definition getSiblingNodes (fuel : nat) (nodes : list ptr) (st : siblingType)
    (untilSelector : String.string) (untilNodes : list ptr) : res (list ptr) :=
  let f := if isUntil st then Some (untilTest untilSelector untilNodes)
           else None in
  mapNodes nodes (fun _ n =>
    getChildrenWithSiblingType fuel (Parent (doc n)) st (Some n) f).

Definition getChildrenNodes (fuel : nat) (nodes : list ptr) (st : siblingType)
  : res (list ptr) :=
  mapNodes nodes (fun _ n => getChildrenWithSiblingType fuel (Some n) st None None).

(** The loop [for p := n.Parent; p != nil; p = p.Parent] of
    [getParentsNodes]. *)
Fixpoint getParentsNodes_loop (fuel : nat) (stopSelector : String.string)
    (stopNodes : list ptr) (p : option ptr) (result : list ptr)
  : res (list ptr) :=
  match fuel with
  | O => OutOfFuel
  | S fuel' =>
      match p with
      | None => Ok result
      | Some a =>
          let sel := newSingleSelection a None in
          stop <- (if nonEmpty stopSelector then Is sel stopSelector
                   else if 0 <? length stopNodes then IsNodes sel stopNodes
                   else Ok false) ;;
          if stop then Ok result
          else
            getParentsNodes_loop fuel' stopSelector stopNodes (Parent (doc a))
              (if isElementNode (Type_ (doc a)) then result ++ [a] else result)
      end
  end.

Definition getParentsNodes (fuel : nat) (nodes : list ptr)
    (stopSelector : String.string) (stopNodes : list ptr) : res (list ptr) :=
  mapNodes nodes (fun _ n =>
    getParentsNodes_loop fuel stopSelector stopNodes (Parent (doc n)) []).

Definition getParentNodes (nodes : list ptr) : res (list ptr) :=
  mapNodes nodes (fun _ n =>
    match Parent (doc n) with
    | Some p => if isElementNode (Type_ (doc p)) then Ok [p] else Ok []
    | None => Ok []
    end).

(** The loop [for c := n.FirstChild; c != nil; c = c.NextSibling] of
    [findWithSelector]. *)
Fixpoint findWithSelector_loop (fuel : nat) (sel : Selector) (c : option ptr)
    (result : list ptr) : res (list ptr) :=
  match fuel with
  | O => OutOfFuel
  | S fuel' =>
      match c with
      | None => Ok result
      | Some a =>
          findWithSelector_loop fuel' sel (NextSibling (doc a))
            (if isElementNode (Type_ (doc a)) then result ++ MatchAll sel a
             else result)
      end
  end.

Definition findWithSelector (fuel : nat) (nodes : list ptr)
    (selector : String.string) : res (list ptr) :=
  sel <- MustCompile selector ;;
  mapNodes nodes (fun _ n =>
    findWithSelector_loop fuel sel (FirstChild (doc n)) []).

(** The loop [for ; n != nil; n = n.Parent] of [Closest] and
    [ClosestNodes]. *)
Fixpoint closest_loop (fuel : nat) (test : ptr -> bool) (n : option ptr)
  : res (list ptr) :=
  match fuel with
  | O => OutOfFuel
  | S fuel' =>
      match n with
      | None => Ok []
      | Some a => if test a then Ok [a]
                  else closest_loop fuel' test (Parent (doc a))
      end
  end.

(** *** Public operations *)

Definition pushed (s : Selection) (r : res (list ptr)) : res Selection :=
  nodes <- r ;; Ok (pushStack s nodes).

Definition Find (fuel : nat) (s : Selection) (selector : String.string) :=
  pushed s (findWithSelector fuel (Nodes s) selector).

Definition FindNodes (s : Selection) (nodes : list ptr) : res Selection :=
  pushed s (mapNodes nodes (fun _ n =>
    if sliceContains (Nodes s) n then Ok [n] else Ok [])).

Definition FindSelection (s : Selection) (sel : option Selection)
  : res Selection :=
  match sel with
  | None => Ok (pushStack s [])
  | Some sel => FindNodes s (Nodes sel)
  end.

Definition Contents (fuel : nat) (s : Selection) :=
  pushed s (getChildrenNodes fuel (Nodes s) siblingAllIncludingNonElements).

Definition Children (fuel : nat) (s : Selection) :=
  pushed s (getChildrenNodes fuel (Nodes s) siblingAll).

Definition Parent_ (s : Selection) := pushed s (getParentNodes (Nodes s)).

Definition Closest (fuel : nat) (s : Selection) (selector : String.string) :=
  cs <- MustCompile selector ;;
  pushed s (mapNodes (Nodes s) (fun _ n => closest_loop fuel cs (Some n))).

Definition ClosestNodes (fuel : nat) (s : Selection) (nodes : list ptr) :=
  pushed s (mapNodes (Nodes s) (fun _ n =>
    closest_loop fuel (isInSlice nodes) (Some n))).

Definition ClosestSelection (fuel : nat) (s : Selection)
    (sel : option Selection) : res Selection :=
  match sel with
  | None => Ok (pushStack s [])
  | Some sel => ClosestNodes fuel s (Nodes sel)
  end.

Definition Parents (fuel : nat) (s : Selection) :=
  pushed s (getParentsNodes fuel (Nodes s) String.EmptyString []).

Definition ParentsUntil (fuel : nat) (s : Selection) (selector : String.string) :=
  pushed s (getParentsNodes fuel (Nodes s) selector []).

Definition ParentsUntilNodes (fuel : nat) (s : Selection) (nodes : list ptr) :=
  pushed s (getParentsNodes fuel (Nodes s) String.EmptyString nodes).

Definition ParentsUntilSelection (fuel : nat) (s : Selection)
    (sel : option Selection) : res Selection :=
  match sel with
  | None => Parents fuel s
  | Some sel => ParentsUntilNodes fuel s (Nodes sel)
  end.

Definition Siblings (fuel : nat) (s : Selection) :=
  pushed s (getSiblingNodes fuel (Nodes s) siblingAll String.EmptyString []).

Definition Next (fuel : nat) (s : Selection) :=
  pushed s (getSiblingNodes fuel (Nodes s) siblingNext String.EmptyString []).

Definition NextAll (fuel : nat) (s : Selection) :=
  pushed s (getSiblingNodes fuel (Nodes s) siblingNextAll String.EmptyString []).

Definition Prev (fuel : nat) (s : Selection) :=
  pushed s (getSiblingNodes fuel (Nodes s) siblingPrev String.EmptyString []).

Definition PrevAll (fuel : nat) (s : Selection) :=
  pushed s (getSiblingNodes fuel (Nodes s) siblingPrevAll String.EmptyString []).

Definition NextUntil (fuel : nat) (s : Selection) (selector : String.string) :=
  pushed s (getSiblingNodes fuel (Nodes s) siblingNextUntil selector []).

Definition NextUntilNodes (fuel : nat) (s : Selection) (nodes : list ptr) :=
  pushed s (getSiblingNodes fuel (Nodes s) siblingNextUntil
              String.EmptyString nodes).

Definition NextUntilSelection (fuel : nat) (s : Selection)
    (sel : option Selection) : res Selection :=
  match sel with
  | None => NextAll fuel s
  | Some sel => NextUntilNodes fuel s (Nodes sel)
  end.

Definition PrevUntil (fuel : nat) (s : Selection) (selector : String.string) :=
  pushed s (getSiblingNodes fuel (Nodes s) siblingPrevUntil selector []).

Definition PrevUntilNodes (fuel : nat) (s : Selection) (nodes : list ptr) :=
  pushed s (getSiblingNodes fuel (Nodes s) siblingPrevUntil
              String.EmptyString nodes).

Definition PrevUntilSelection (fuel : nat) (s : Selection)
    (sel : option Selection) : res Selection :=
  match sel with
  | None => PrevAll fuel s
  | Some sel => PrevUntilNodes fuel s (Nodes sel)
  end.

End Code.

(** ** Specification vocabulary for the walks *)

(** [chain link start l]: following [link] from [start] visits exactly
    the nodes of [l], in order, and then reaches nil. *)
Fixpoint chain (link : ptr -> option ptr) (start : option ptr) (l : list ptr)
  : bool :=
  match l with
  | [] => is_nil start
  | x :: r => ptr_eq start (Some x) && chain link (link x) r
  end.

Definition nextOf (doc : ptr -> Node) (x : ptr) := NextSibling (doc x).
Definition prevOf (doc : ptr -> Node) (x : ptr) := PrevSibling (doc x).
Definition parentOf (doc : ptr -> Node) (x : ptr) := Parent (doc x).

Definition isElement (doc : ptr -> Node) (x : ptr) : bool :=
  isElementNode (Type_ (doc x)).

(** The prefix of [l] before the first node on which [stop] holds. *)
Fixpoint takeUntil (stop : ptr -> bool) (l : list ptr) : list ptr :=
  match l with
  | [] => []
  | x :: r => if stop x then [] else x :: takeUntil stop r
  end.

(** The raw sibling sequence a walk with pivot [n] runs over: the
    parent's child list for the two [All] modes, the siblings after
    (before) the pivot, nearest first, for the [Next] ([Prev]) modes. *)
Definition walked (doc : ptr -> Node) (parent : option ptr) (st : siblingType)
    (n : ptr) (l : list ptr) : bool :=
  match st with
  | siblingAll | siblingAllIncludingNonElements =>
      match parent with
      | Some p => chain (nextOf doc) (FirstChild (doc p)) l
      | None => false
      end
  | siblingPrev | siblingPrevAll | siblingPrevUntil =>
      chain (prevOf doc) (PrevSibling (doc n)) l
  | siblingNext | siblingNextAll | siblingNextUntil =>
      chain (nextOf doc) (NextSibling (doc n)) l
  end.

(** [l] with the node [skip] (when not nil) left out. *)
Definition without (skip : option ptr) (l : list ptr) : list ptr :=
  match skip with
  | Some s => filter (differs s) l
  | None => l
  end.

(** What a walk over the raw sequence [l] is to return. *)
Fixpoint walk_result (doc : ptr -> Node) (st : siblingType)
    (stop : ptr -> bool) (l : list ptr) : list ptr :=
  match l with
  | [] => []
  | x :: r =>
      if isElement doc x || isAllIncludingNonElements st
      then if isUntil st && stop x then []
           else x :: (if isSingle st then [] else walk_result doc st stop r)
      else walk_result doc st stop r
  end.

(** The children of [p] are exactly [l], in document order: [l] is
    doubly linked from [p.FirstChild] and every member has parent [p]. *)
Fixpoint siblings_linked (doc : ptr -> Node) (prev cur : option ptr)
    (l : list ptr) : bool :=
  match l with
  | [] => is_nil cur
  | x :: r =>
      ptr_eq cur (Some x) && ptr_eq (PrevSibling (doc x)) prev
      && siblings_linked doc (Some x) (NextSibling (doc x)) r
  end.

Definition children_of (doc : ptr -> Node) (p : ptr) (l : list ptr) : bool :=
  siblings_linked doc None (FirstChild (doc p)) l
  && forallb (fun x => ptr_eq (Parent (doc x)) (Some p)) l.

(** [x] lies strictly below [n]: [n] is reached from [x] by one or more
    [Parent] links. *)
Fixpoint nth_parent (doc : ptr -> Node) (k : nat) (x : ptr) : option ptr :=
  match k with
  | O => Some x
  | S k' => match Parent (doc x) with
            | Some p => nth_parent doc k' p
            | None => None
            end
  end.

Definition strict_descendant (doc : ptr -> Node) (n x : ptr) : Prop :=
  exists k, nth_parent doc (S k) x = Some n.

Definition in_subtree (doc : ptr -> Node) (c x : ptr) : Prop :=
  exists k, nth_parent doc k x = Some c.

(** The candidates of a walk: every node for
    [siblingAllIncludingNonElements], the element nodes otherwise. *)
Definition candidates (doc : ptr -> Node) (st : siblingType) (l : list ptr)
  : list ptr :=
  if isAllIncludingNonElements st then l else filter (isElement doc) l.

(** The link a mode follows. *)
Definition dirLink (doc : ptr -> Node) (st : siblingType)
  : ptr -> option ptr :=
  match st with
  | siblingPrev | siblingPrevAll | siblingPrevUntil => prevOf doc
  | _ => nextOf doc
  end.

Definition isAllMode (st : siblingType) : bool :=
  match st with
  | siblingAll | siblingAllIncludingNonElements => true
  | _ => false
  end.

(** The raw position the two [All] modes read before the skip test. *)
Definition raw_all (doc : ptr -> Node) (parent cur : option ptr)
  : res (option ptr) :=
  match cur with
  | None => p <- deref parent ;; Ok (FirstChild (doc p))
  | Some c => Ok (NextSibling (doc c))
  end.

(** The raw positions a walk with pivot [n] passes through: the pivot is
    jumped over in the two [All] modes. *)
Definition visited (st : siblingType) (n : ptr) (l : list ptr) : list ptr :=
  if isAllMode st then without (Some n) l else l.

(** [steps cur l]: the switch of the iterator, started from [cur],
    visits the raw positions [l] and then nil. *)
Fixpoint steps (doc : ptr -> Node) (parent : option ptr) (st : siblingType)
    (skipNode cur : option ptr) (l : list ptr) : Prop :=
  match l with
  | [] => iter_switch doc parent st skipNode cur = Ok None
  | x :: r => iter_switch doc parent st skipNode cur = Ok (Some x)
              /\ steps doc parent st skipNode (Some x) r
  end.

(** The until test returns, with the verdict of [stop], on every
    element node of [l]; it is unconstrained on the other nodes. *)
Definition until_agrees (doc : ptr -> Node) (st : siblingType)
    (untilFunc : option (ptr -> res bool)) (stop : ptr -> bool)
    (l : list ptr) : Prop :=
  isUntil st = true ->
  exists f, untilFunc = Some f
    /\ forall x, In x l -> isElement doc x = true -> f x = Ok (stop x).

(** What the descendant search is to return for one source node whose
    children are [kids]: the subtree enumerations of its element
    children, concatenated. *)
Definition found_below (doc : ptr -> Node) (MatchAll : Selector -> ptr -> list ptr)
    (sel : Selector) (kids : list ptr) : list ptr :=
  flat_map (MatchAll sel) (filter (isElement doc) kids).

(** The two directions of a sibling walk and their modes. *)
Inductive direction : Type := Forward | Backward.

Definition singleOf (d : direction) : siblingType :=
  match d with Forward => siblingNext | Backward => siblingPrev end.

Definition allOf (d : direction) : siblingType :=
  match d with Forward => siblingNextAll | Backward => siblingPrevAll end.

(** The boundary property of the Until walks read on every sibling: with
    [l] the siblings in walk direction and [r] the result, neither the
    first sibling on which the stop condition holds nor any sibling
    beyond it is in [r]. *)
Definition excludes_from_first_stop (stop : ptr -> bool) (l r : list ptr)
  : Prop :=
  forall a x b,
    l = a ++ x :: b -> stop x = true ->
    (forall y, In y a -> stop y = false) ->
    ~ In x r /\ forall y, In y b -> ~ In y r.

(** ** A sample document

    [<div><!--c--><p id=a><b/></p>text<span id=b/><em/></div>] under a
    document node: 0 the document, 1 the div, 2 the comment, 3 the p,
    4 the text, 5 the span, 6 the em, 7 the b inside the p. *)
Definition sample (x : ptr) : Node :=
  match x with
  | 0 => mkNode None (Some 1) None None DocumentNode
  | 1 => mkNode (Some 0) (Some 2) None None ElementNode
  | 2 => mkNode (Some 1) None None (Some 3) CommentNode
  | 3 => mkNode (Some 1) (Some 7) (Some 2) (Some 4) ElementNode
  | 4 => mkNode (Some 1) None (Some 3) (Some 5) TextNode
  | 5 => mkNode (Some 1) None (Some 4) (Some 6) ElementNode
  | 6 => mkNode (Some 1) None (Some 5) None ElementNode
  | 7 => mkNode (Some 3) None None None ElementNode
  | _ => mkNode None None None None ErrorNode
  end.

(** Sample collaborators: a selector compiler that knows four selectors
    and panics on anything else, the selection tests built on it, and a
    subtree enumeration for the sample document. *)
Definition sample_MustCompile (selector : String.string) : res Selector :=
  if String.eqb selector "span"%string then Ok (Nat.eqb 5)
  else if String.eqb selector "em"%string then Ok (Nat.eqb 6)
  else if String.eqb selector "div"%string then Ok (Nat.eqb 1)
  else if String.eqb selector "*"%string then Ok (isElement sample)
  else Panic.

Definition sample_Is (s : Selection) (selector : String.string) : res bool :=
  cs <- sample_MustCompile selector ;; Ok (existsb cs (Nodes s)).

Definition sample_IsNodes (s : Selection) (nodes : list ptr) : res bool :=
  Ok (existsb (isInSlice nodes) (Nodes s)).

Definition sample_subtree (c : ptr) : list ptr :=
  match c with
  | 0 => [0; 1; 2; 3; 7; 4; 5; 6]
  | 1 => [1; 2; 3; 7; 4; 5; 6]
  | 3 => [3; 7]
  | _ => [c]
  end.

Definition sample_MatchAll (sel : Selector) (c : ptr) : list ptr :=
  filter sel (sample_subtree c).

Definition sample_sliceContains (container : list ptr) (contained : ptr)
  : bool :=
  existsb (fun n => negb (Nat.eqb n contained)
                    && isInSlice (sample_subtree n) contained) container.

(** The children and the ancestors of the nodes of the sample document. *)
Definition sample_kids (n : ptr) : list ptr :=
  match n with
  | 0 => [1]
  | 1 => [2; 3; 4; 5; 6]
  | 3 => [7]
  | _ => []
  end.

Definition sample_ancs (n : ptr) : list ptr :=
  match n with
  | 1 => [0]
  | 2 | 3 | 4 | 5 | 6 => [1; 0]
  | 7 => [3; 1; 0]
  | _ => []
  end.

(** An until test that stops at the em and panics when it is run on a
    node that is not an element. *)
Definition sample_strict_test (y : ptr) : res bool :=
  if isElement sample y then Ok (Nat.eqb y 6) else Panic.

(** ** The filtered operations *)

Section Filtered.

Variable doc : ptr -> Node.
Variable Is : Selection -> String.string -> res bool.
Variable IsNodes : Selection -> list ptr -> res bool.
Variable MustCompile : String.string -> res Selector.

(** [winnow] lives outside traversal.go and is taken as a parameter: the
    nodes of a Selection kept ([keep = true]) by a compiled selector. *)
Variable winnow : Selection -> Selector -> bool -> list ptr.

(** [filterAndPush]: its [nodes] argument is evaluated by the caller
    before the filter selector is compiled. *)
Definition filterAndPush (srcSel : Selection) (nodes : res (list ptr))
    (selector : String.string) : res Selection :=
  nodes <- nodes ;;
  let sel := mkSelection nodes (document srcSel) None in
  cs <- MustCompile selector ;;
  Ok (pushStack srcSel (winnow sel cs true)).

Definition ChildrenFiltered (fuel : nat) (s : Selection)
    (selector : String.string) :=
  filterAndPush s (getChildrenNodes doc fuel (Nodes s) siblingAll) selector.

Definition ContentsFiltered (fuel : nat) (s : Selection)
    (selector : String.string) :=
  if nonEmpty selector then ChildrenFiltered fuel s selector
  else Contents doc fuel s.

Definition ParentFiltered (s : Selection) (selector : String.string) :=
  filterAndPush s (getParentNodes doc (Nodes s)) selector.

Definition ParentsFiltered (fuel : nat) (s : Selection)
    (selector : String.string) :=
  filterAndPush s
    (getParentsNodes doc Is IsNodes fuel (Nodes s) String.EmptyString [])
    selector.

Definition ParentsFilteredUntil (fuel : nat) (s : Selection)
    (filterSelector untilSelector : String.string) :=
  filterAndPush s
    (getParentsNodes doc Is IsNodes fuel (Nodes s) untilSelector [])
    filterSelector.

Definition ParentsFilteredUntilNodes (fuel : nat) (s : Selection)
    (filterSelector : String.string) (nodes : list ptr) :=
  filterAndPush s
    (getParentsNodes doc Is IsNodes fuel (Nodes s) String.EmptyString nodes)
    filterSelector.

Definition ParentsFilteredUntilSelection (fuel : nat) (s : Selection)
    (filterSelector : String.string) (sel : option Selection) :=
  match sel with
  | None => ParentsFiltered fuel s filterSelector
  | Some sel => ParentsFilteredUntilNodes fuel s filterSelector (Nodes sel)
  end.

Definition SiblingsFiltered (fuel : nat) (s : Selection)
    (selector : String.string) :=
  filterAndPush s
    (getSiblingNodes doc Is IsNodes fuel (Nodes s) siblingAll
       String.EmptyString []) selector.

Definition NextFiltered (fuel : nat) (s : Selection)
    (selector : String.string) :=
  filterAndPush s
    (getSiblingNodes doc Is IsNodes fuel (Nodes s) siblingNext
       String.EmptyString []) selector.

Definition NextAllFiltered (fuel : nat) (s : Selection)
    (selector : String.string) :=
  filterAndPush s
    (getSiblingNodes doc Is IsNodes fuel (Nodes s) siblingNextAll
       String.EmptyString []) selector.

Definition PrevFiltered (fuel : nat) (s : Selection)
    (selector : String.string) :=
  filterAndPush s
    (getSiblingNodes doc Is IsNodes fuel (Nodes s) siblingPrev
       String.EmptyString []) selector.

Definition PrevAllFiltered (fuel : nat) (s : Selection)
    (selector : String.string) :=
  filterAndPush s
    (getSiblingNodes doc Is IsNodes fuel (Nodes s) siblingPrevAll
       String.EmptyString []) selector.

Definition NextFilteredUntil (fuel : nat) (s : Selection)
    (filterSelector untilSelector : String.string) :=
  filterAndPush s
    (getSiblingNodes doc Is IsNodes fuel (Nodes s) siblingNextUntil
       untilSelector []) filterSelector.

Definition NextFilteredUntilNodes (fuel : nat) (s : Selection)
    (filterSelector : String.string) (nodes : list ptr) :=
  filterAndPush s
    (getSiblingNodes doc Is IsNodes fuel (Nodes s) siblingNextUntil
       String.EmptyString nodes) filterSelector.

Definition NextFilteredUntilSelection (fuel : nat) (s : Selection)
    (filterSelector : String.string) (sel : option Selection) :=
  match sel with
  | None => NextFiltered fuel s filterSelector
  | Some sel => NextFilteredUntilNodes fuel s filterSelector (Nodes sel)
  end.

Definition PrevFilteredUntil (fuel : nat) (s : Selection)
    (filterSelector untilSelector : String.string) :=
  filterAndPush s
    (getSiblingNodes doc Is IsNodes fuel (Nodes s) siblingPrevUntil
       untilSelector []) filterSelector.

Definition PrevFilteredUntilNodes (fuel : nat) (s : Selection)
    (filterSelector : String.string) (nodes : list ptr) :=
  filterAndPush s
    (getSiblingNodes doc Is IsNodes fuel (Nodes s) siblingPrevUntil
       String.EmptyString nodes) filterSelector.

Definition PrevFilteredUntilSelection (fuel : nat) (s : Selection)
    (filterSelector : String.string) (sel : option Selection) :=
  match sel with
  | None => PrevFiltered fuel s filterSelector
  | Some sel => PrevFilteredUntilNodes fuel s filterSelector (Nodes sel)
  end.

End Filtered.

(** ** Further specification vocabulary *)

Definition untilOf (d : direction) : siblingType :=
  match d with Forward => siblingNextUntil | Backward => siblingPrevUntil end.

(** What [getParentNodes] draws from one source node: its parent, when
    there is one and it is an element. *)
Definition element_parent (doc : ptr -> Node) (n : ptr) : list ptr :=
  match Parent (doc n) with
  | Some p => if isElement doc p then [p] else []
  | None => []
  end.

(** The first node of [l] that passes [test], as a list of at most one
    node. *)
Definition first_match (test : ptr -> bool) (l : list ptr) : list ptr :=
  match find test l with
  | Some a => [a]
  | None => []
  end.

(** The element siblings of [n] among the children [l] of its parent. *)
Definition element_siblings (doc : ptr -> Node) (l : list ptr) (n : ptr)
  : list ptr :=
  filter (isElement doc) (filter (differs n) l).

(** Sample [winnow]: the nodes the selector matches, in order. *)
Definition sample_winnow (sel : Selection) (cs : Selector) (keep : bool)
  : list ptr :=
  filter (fun n => Bool.eqb (cs n) keep) (Nodes sel).

(** ** Lemmas on the merge *)

Lemma isInSlice_In (l : list ptr) (x : ptr) : isInSlice l x = true <-> In x l.
Proof.
  unfold isInSlice. rewrite existsb_exists. split.
  - intros [y [Hy He]]. apply Nat.eqb_eq in He. now subst.
  - intros H. exists x. split; [assumption | apply Nat.eqb_refl].
Qed.

Lemma isInSlice_app (a b : list ptr) (x : ptr) :
  isInSlice (a ++ b) x = isInSlice a x || isInSlice b x.
Proof. unfold isInSlice. apply existsb_app. Qed.

Lemma filter_filter (p q : ptr -> bool) (l : list ptr) :
  filter p (filter q l) = filter (fun y => q y && p y) l.
Proof.
  induction l as [|x l IH]; simpl; [reflexivity|].
  destruct (q x); simpl; [destruct (p x)|]; now rewrite IH.
Qed.

Lemma filter_all (p : ptr -> bool) (l : list ptr) :
  (forall y, In y l -> p y = true) -> filter p l = l.
Proof.
  induction l as [|x l IH]; intros H; simpl; [reflexivity|].
  rewrite (H x (or_introl eq_refl)), IH; [reflexivity|].
  intros y Hy. apply H. now right.
Qed.

Lemma keep_first_filter (p : ptr -> bool) (l : list ptr) :
  keep_first (filter p l) = filter p (keep_first l).
Proof.
  induction l as [|x l IH]; simpl; [reflexivity|].
  destruct (p x) eqn:Hp; simpl.
  - rewrite ?Hp, IH, !filter_filter. f_equal.
    apply filter_ext. intros y. apply andb_comm.
  - rewrite IH, filter_filter. apply filter_ext_in. intros y _.
    unfold differs. destruct (Nat.eqb y x) eqn:E; simpl; [|reflexivity].
    apply Nat.eqb_eq in E. subst. now rewrite Hp.
Qed.

Lemma keep_first_app (a b : list ptr) :
  keep_first (a ++ b)
  = keep_first a ++ keep_first (filter (fun y => negb (isInSlice a y)) b).
Proof.
  induction a as [|x a IH]; simpl.
  - now rewrite filter_all.
  - rewrite IH, filter_app. do 2 f_equal.
    rewrite <- keep_first_filter, filter_filter. f_equal.
    apply filter_ext. intros y. unfold differs.
    rewrite negb_orb. apply andb_comm.
Qed.

Lemma In_keep_first (l : list ptr) (x : ptr) : In x (keep_first l) <-> In x l.
Proof.
  induction l as [|y l IH]; simpl; [tauto|].
  rewrite filter_In, IH. unfold differs.
  destruct (Nat.eqb x y) eqn:E; simpl.
  - apply Nat.eqb_eq in E. subst. split; auto.
  - apply Nat.eqb_neq in E. split.
    + intros [H|[H _]]; auto.
    + intros [H|H]; [congruence | auto].
Qed.

Lemma NoDup_keep_first (l : list ptr) : NoDup (keep_first l).
Proof.
  induction l as [|x l IH]; simpl; constructor.
  - rewrite filter_In. unfold differs. rewrite Nat.eqb_refl. simpl.
    intros [_ H]. discriminate.
  - now apply NoDup_filter.
Qed.

Lemma keep_first_NoDup (l : list ptr) : NoDup l -> keep_first l = l.
Proof.
  induction 1 as [|x l Hx Hl IH]; simpl; [reflexivity|].
  rewrite IH. f_equal. apply filter_all.
  intros y Hy. unfold differs. destruct (Nat.eqb y x) eqn:E; [|reflexivity].
  apply Nat.eqb_eq in E. subst. contradiction.
Qed.

Lemma appendWithoutDuplicates_spec (nodes target : list ptr) :
  appendWithoutDuplicates target nodes
  = target ++ keep_first (filter (fun y => negb (isInSlice target y)) nodes).
Proof.
  revert target. induction nodes as [|n rest IH]; intros target; simpl.
  - now rewrite app_nil_r.
  - destruct (isInSlice target n) eqn:Hin; simpl.
    + apply IH.
    + rewrite IH, <- app_assoc. simpl. do 2 f_equal.
      rewrite <- keep_first_filter, filter_filter. f_equal.
      apply filter_ext. intros y. rewrite isInSlice_app. simpl.
      unfold differs. rewrite orb_false_r, negb_orb.
      now rewrite (Nat.eqb_sym y n).
Qed.

Lemma appendWithoutDuplicates_keep_first (A vals : list ptr) :
  appendWithoutDuplicates (keep_first A) vals = keep_first (A ++ vals).
Proof.
  rewrite appendWithoutDuplicates_spec, keep_first_app. do 2 f_equal.
  apply filter_ext. intros y. f_equal.
  apply eq_true_iff_eq. rewrite !isInSlice_In. apply In_keep_first.
Qed.

Lemma mapNodes_from_spec (g : nat -> ptr -> list ptr)
    (f : nat -> ptr -> res (list ptr)) (nodes : list ptr) :
  forall (i : nat) (A : list ptr),
    (forall k n, nth_error nodes k = Some n -> f (i + k) n = Ok (g (i + k) n)) ->
    mapNodes_from i nodes f (keep_first A)
    = Ok (keep_first (A ++ concat (expansions_from i g nodes))).
Proof.
  induction nodes as [|n rest IH]; intros i A Hf; simpl.
  - now rewrite app_nil_r.
  - pose proof (Hf 0 n eq_refl) as H0. rewrite Nat.add_0_r in H0.
    rewrite H0. simpl.
    replace (if 0 <? length (g i n)
             then appendWithoutDuplicates (keep_first A) (g i n)
             else keep_first A)
      with (keep_first (A ++ g i n)).
    + rewrite IH, <- app_assoc; [reflexivity|].
      intros k m Hk. specialize (Hf (S k) m Hk).
      now rewrite Nat.add_succ_r in Hf.
    + destruct (g i n) as [|v vs]; simpl.
      * now rewrite app_nil_r.
      * now rewrite <- appendWithoutDuplicates_keep_first.
Qed.

(** C1.  Whenever every call of the expansion function returns, the merge
    of [mapNodes] returns the concatenation of the per-source expansions
    with every duplicate dropped at other than its first occurrence, and
    that list holds each node reference at most once. *)
Theorem mapNodes_dedup_first_occurrence
    (nodes : list ptr) (f : nat -> ptr -> res (list ptr))
    (g : nat -> ptr -> list ptr)
    (Hf : forall i n, nth_error nodes i = Some n -> f i n = Ok (g i n)) :
  mapNodes nodes f = Ok (keep_first (concat (expansions g nodes)))
  /\ NoDup (keep_first (concat (expansions g nodes))).
Proof.
  split; [|apply NoDup_keep_first].
  unfold mapNodes, expansions.
  change (@nil ptr) with (keep_first []) at 1.
  rewrite (mapNodes_from_spec g); [reflexivity | exact Hf].
Qed.

(** ** Pointer chains *)

Lemma ptr_eq_true (p q : option ptr) : ptr_eq p q = true <-> p = q.
Proof.
  destruct p as [a|], q as [b|]; simpl; split; intros H;
    try discriminate; try reflexivity.
  - apply Nat.eqb_eq in H. now subst.
  - injection H as ->. apply Nat.eqb_refl.
Qed.

Lemma ptr_eq_false (p q : option ptr) : ptr_eq p q = false <-> p <> q.
Proof.
  rewrite <- ptr_eq_true. destruct (ptr_eq p q); split; congruence.
Qed.

Lemma is_nil_true (p : option ptr) : is_nil p = true <-> p = None.
Proof. destruct p; simpl; split; congruence. Qed.

Section Chains.

Variable link : ptr -> option ptr.

Lemma chain_nil (s : option ptr) : chain link s [] = true <-> s = None.
Proof. apply is_nil_true. Qed.

Lemma chain_cons (s : option ptr) (x : ptr) (r : list ptr) :
  chain link s (x :: r) = true <-> s = Some x /\ chain link (link x) r = true.
Proof. simpl. now rewrite andb_true_iff, ptr_eq_true. Qed.

Lemma chain_det (l1 : list ptr) :
  forall (l2 : list ptr) (s : option ptr),
    chain link s l1 = true -> chain link s l2 = true -> l1 = l2.
Proof.
  induction l1 as [|x r IH]; intros [|y r2] s H1 H2; [reflexivity| | |].
  - apply chain_nil in H1. apply chain_cons in H2. destruct H2. congruence.
  - apply chain_nil in H2. apply chain_cons in H1. destruct H1. congruence.
  - apply chain_cons in H1, H2. destruct H1 as [E1 H1], H2 as [E2 H2].
    assert (x = y) by congruence. subst y. f_equal. eauto.
Qed.

Lemma chain_suffix (a b : list ptr) :
  forall s, chain link s (a ++ b) = true -> exists s', chain link s' b = true.
Proof.
  induction a as [|x a IH]; intros s H; simpl in H.
  - now exists s.
  - apply andb_true_iff in H. destruct H as [_ H]. eauto.
Qed.

Lemma chain_notin (x : ptr) (r : list ptr) :
  chain link (link x) r = true -> ~ In x r.
Proof.
  intros H Hin. apply in_split in Hin. destruct Hin as [r1 [r2 E]].
  assert (Hs : chain link (link x) r2 = true).
  { rewrite E in H. apply chain_suffix in H. destruct H as [s' H].
    apply chain_cons in H. tauto. }
  pose proof (chain_det _ _ _ H Hs) as E2.
  apply (f_equal (@length ptr)) in E2. rewrite E in E2.
  rewrite length_app in E2. simpl in E2. lia.
Qed.

Lemma chain_NoDup (l : list ptr) :
  forall s, chain link s l = true -> NoDup l.
Proof.
  induction l as [|x r IH]; intros s H; constructor.
  - apply chain_cons in H. apply chain_notin. tauto.
  - apply chain_cons in H. destruct H as [_ H]. eauto.
Qed.

End Chains.

Lemma without_notin (s : ptr) (l : list ptr) :
  ~ In s l -> filter (differs s) l = l.
Proof.
  intros H. apply filter_all. intros y Hy. unfold differs.
  destruct (Nat.eqb y s) eqn:E; [|reflexivity].
  apply Nat.eqb_eq in E. subst. contradiction.
Qed.

Lemma differs_self (s : ptr) : differs s s = false.
Proof. unfold differs. now rewrite Nat.eqb_refl. Qed.

Lemma differs_other (s x : ptr) : x <> s -> differs s x = true.
Proof. unfold differs. intros H. apply Nat.eqb_neq in H. now rewrite H. Qed.

(** ** The sibling walker over a finite chain *)

Section Walker.

Variable doc : ptr -> Node.
Variable parent : option ptr.
Variable st : siblingType.
Variable skipNode : option ptr.
Variable untilFunc : option (ptr -> res bool).
Variable stop : ptr -> bool.

Lemma until_agrees_tail (x : ptr) (r : list ptr) :
  until_agrees doc st untilFunc stop (x :: r) ->
  until_agrees doc st untilFunc stop r.
Proof.
  intros H Hu. destruct (H Hu) as [f [Ef Hf]]. exists f. split; [assumption|].
  intros y Hy. apply Hf. now right.
Qed.

Lemma loop_steps (l : list ptr) :
  forall (cur : option ptr) (fI fL : nat) (result : list ptr),
    steps doc parent st skipNode cur l ->
    until_agrees doc st untilFunc stop l ->
    length l < fI -> length l < fL ->
    (c <- iter doc fI parent st skipNode cur ;;
     getChildrenWithSiblingType_loop doc fL parent st skipNode untilFunc
       c result)
    = Ok (result ++ walk_result doc st stop l).
Proof.
  induction l as [|x r IH]; intros cur fI fL result Hs Hu HI HL.
  - destruct fI as [|fI]; [simpl in HI; lia|].
    destruct fL as [|fL]; [simpl in HL; lia|].
    simpl in Hs. simpl. rewrite Hs. simpl. now rewrite app_nil_r.
  - destruct fI as [|fI]; [simpl in HI; lia|].
    destruct Hs as [Hx Hs]. simpl in HI, HL.
    cbn [iter walk_result]. rewrite Hx. cbn [bind].
    fold (isElement doc x).
    destruct (isElement doc x || isAllIncludingNonElements st) eqn:Hc.
    + destruct fL as [|fL]; [lia|].
      cbn [bind getChildrenWithSiblingType_loop].
      assert (Hstop : (if isUntil st
                       then match untilFunc with
                            | Some f => f x
                            | None => Panic
                            end
                       else Ok false) = Ok (isUntil st && stop x)).
      { destruct (isUntil st) eqn:Eu; [|reflexivity].
        destruct (Hu Eu) as [f [-> Hf]]. simpl. apply Hf; [now left|].
        destruct st; simpl in *; try discriminate;
          now rewrite orb_false_r in Hc. }
      rewrite Hstop. cbn [bind].
      destruct (isUntil st && stop x); [now rewrite app_nil_r|].
      destruct (isSingle st); [reflexivity|].
      rewrite (IH (Some x) fL fL (result ++ [x]) Hs
                 (until_agrees_tail _ _ Hu)) by lia.
      now rewrite <- app_assoc.
    + apply IH; try assumption; try lia. now apply until_agrees_tail in Hu.
Qed.

Lemma getChildrenWithSiblingType_steps (l : list ptr) (fuel : nat) :
  steps doc parent st skipNode None l ->
  until_agrees doc st untilFunc stop l -> length l < fuel ->
  getChildrenWithSiblingType doc fuel parent st skipNode untilFunc
  = Ok (walk_result doc st stop l).
Proof.
  intros Hs Hu Hf. unfold getChildrenWithSiblingType.
  now rewrite (loop_steps l None fuel fuel [] Hs Hu Hf Hf).
Qed.

End Walker.

(** *** What the walk returns, mode by mode *)

Lemma walk_result_eq (doc : ptr -> Node) (st : siblingType)
    (stop : ptr -> bool) (l : list ptr) :
  walk_result doc st stop l
  = if isUntil st then takeUntil stop (candidates doc st l)
    else if isSingle st then firstn 1 (candidates doc st l)
    else candidates doc st l.
Proof.
  unfold candidates.
  induction l as [|x r IH]; [now destruct st|].
  cbn [walk_result filter]. rewrite IH. clear IH.
  destruct st; cbn [isUntil isSingle isAllIncludingNonElements];
    rewrite ?orb_false_r, ?orb_true_r, ?andb_false_l, ?andb_true_l;
    destruct (isElement doc x); try reflexivity;
    cbn [takeUntil firstn]; try reflexivity;
    destruct (stop x); reflexivity.
Qed.

Lemma takeUntil_incl (stop : ptr -> bool) (l : list ptr) (x : ptr) :
  In x (takeUntil stop l) -> In x l.
Proof.
  induction l as [|y r IH]; simpl; [tauto|].
  destruct (stop y); simpl; [tauto|]. intros [H|H]; auto.
Qed.

Lemma takeUntil_app_stop (stop : ptr -> bool) (a b : list ptr) (x : ptr) :
  (forall y, In y a -> stop y = false) -> stop x = true ->
  takeUntil stop (a ++ x :: b) = a.
Proof.
  intros Ha Hx. induction a as [|y a IH]; simpl.
  - now rewrite Hx.
  - rewrite (Ha y (or_introl eq_refl)), IH; [reflexivity|].
    intros z Hz. apply Ha. now right.
Qed.

Lemma takeUntil_none (stop : ptr -> bool) (l : list ptr) :
  (forall y, In y l -> stop y = false) -> takeUntil stop l = l.
Proof.
  intros H. induction l as [|y r IH]; simpl; [reflexivity|].
  rewrite (H y (or_introl eq_refl)), IH; [reflexivity|].
  intros z Hz. apply H. now right.
Qed.

Lemma walk_result_incl (doc : ptr -> Node) (st : siblingType)
    (stop : ptr -> bool) (l : list ptr) (x : ptr) :
  In x (walk_result doc st stop l) -> In x l.
Proof.
  rewrite walk_result_eq. unfold candidates. intros H.
  assert (Hc : In x (if isAllIncludingNonElements st then l
                     else filter (isElement doc) l) -> In x l).
  { destruct (isAllIncludingNonElements st); [tauto|].
    rewrite filter_In. tauto. }
  apply Hc. destruct (isUntil st); [now apply takeUntil_incl in H|].
  destruct (isSingle st); [|assumption].
  rewrite <- (firstn_skipn 1). apply in_or_app. now left.
Qed.

(** *** From the shape of the tree to the steps of the iterator *)

Section Steps.

Variable doc : ptr -> Node.

Lemma steps_directed (parent : option ptr) (st : siblingType)
    (skipNode : option ptr) (l : list ptr) :
  isAllMode st = false ->
  forall c, chain (dirLink doc st) (dirLink doc st c) l = true ->
            steps doc parent st skipNode (Some c) l.
Proof.
  intros Hm. induction l as [|x r IH]; intros c H.
  - apply chain_nil in H. destruct st; try discriminate; simpl;
      unfold dirLink, nextOf, prevOf in H; now rewrite H.
  - apply chain_cons in H. destruct H as [E H]. split; [|now apply IH].
    destruct st; try discriminate; simpl;
      unfold dirLink, nextOf, prevOf in E; now rewrite E.
Qed.

Lemma steps_directed_start (parent : option ptr) (st : siblingType)
    (n : ptr) (l : list ptr) :
  isAllMode st = false ->
  chain (dirLink doc st) (dirLink doc st n) l = true ->
  steps doc parent st (Some n) None l.
Proof.
  intros Hm H. destruct l as [|x r].
  - apply chain_nil in H. destruct st; try discriminate; simpl;
      unfold dirLink, nextOf, prevOf in H; now rewrite H.
  - apply chain_cons in H. destruct H as [E H]. split.
    + destruct st; try discriminate; simpl;
        unfold dirLink, nextOf, prevOf in E; now rewrite E.
    + now apply steps_directed.
Qed.

Lemma iter_switch_all (parent : option ptr) (st : siblingType)
    (skipNode cur : option ptr) (start : option ptr) :
  isAllMode st = true -> raw_all doc parent cur = Ok start ->
  iter_switch doc parent st skipNode cur
  = if ptr_eq start skipNode && negb (is_nil skipNode)
    then s <- deref skipNode ;; Ok (NextSibling (doc s))
    else Ok start.
Proof.
  intros Hm Hr. unfold raw_all in Hr.
  destruct st; try discriminate; simpl;
    (destruct cur as [c|];
     [ injection Hr as <-; reflexivity
     | destruct parent as [p|]; [|discriminate];
       simpl in Hr; injection Hr as <-; reflexivity ]).
Qed.

Lemma steps_all_clear (parent : option ptr) (st : siblingType)
    (skipNode : option ptr) (l : list ptr) :
  isAllMode st = true ->
  (forall s, skipNode = Some s -> ~ In s l) ->
  forall cur start,
    raw_all doc parent cur = Ok start ->
    chain (nextOf doc) start l = true ->
    steps doc parent st skipNode cur l.
Proof.
  intros Hm. induction l as [|x r IH]; intros Hs cur start Hr H.
  - apply chain_nil in H. subst start. simpl.
    rewrite (iter_switch_all _ _ _ _ _ Hm Hr).
    destruct skipNode; reflexivity.
  - apply chain_cons in H. destruct H as [-> H]. split.
    + rewrite (iter_switch_all _ _ _ _ _ Hm Hr).
      destruct skipNode as [s|]; [|reflexivity]. simpl.
      destruct (Nat.eqb x s) eqn:E; [|reflexivity].
      apply Nat.eqb_eq in E. subst s. exfalso.
      apply (Hs x eq_refl). now left.
    + apply IH with (start := nextOf doc x); [|reflexivity|assumption].
      intros s E Hin. apply (Hs s E). now right.
Qed.

Lemma steps_all (parent : option ptr) (st : siblingType)
    (skipNode : option ptr) (l : list ptr) :
  isAllMode st = true ->
  forall cur start,
    raw_all doc parent cur = Ok start ->
    chain (nextOf doc) start l = true ->
    steps doc parent st skipNode cur (without skipNode l).
Proof.
  intros Hm. induction l as [|x r IH]; intros cur start Hr H.
  - apply steps_all_clear with (start := start); try assumption.
    + intros s _ Hin. destruct skipNode; simpl in Hin; contradiction.
    + destruct skipNode; assumption.
  - pose proof (chain_NoDup _ _ _ H) as Hnd.
    apply chain_cons in H. destruct H as [-> H].
    destruct skipNode as [s|] eqn:Es.
    + simpl. destruct (Nat.eq_dec x s) as [->|Hne].
      * rewrite differs_self.
        inversion Hnd as [|? ? Hnotin _]; subst.
        rewrite (without_notin _ _ Hnotin).
        destruct r as [|y r'].
        -- apply chain_nil in H. simpl.
           rewrite (iter_switch_all _ _ _ _ _ Hm Hr). simpl.
           rewrite Nat.eqb_refl. simpl. unfold nextOf in H. now rewrite H.
        -- apply chain_cons in H. destruct H as [E H]. split.
           ++ rewrite (iter_switch_all _ _ _ _ _ Hm Hr). simpl.
              rewrite Nat.eqb_refl. simpl. unfold nextOf in E. now rewrite E.
           ++ apply steps_all_clear with (start := nextOf doc y);
                [assumption| |reflexivity|assumption].
              intros s' E' Hin. injection E' as <-. apply Hnotin. now right.
      * rewrite (differs_other _ _ Hne). split.
        -- rewrite (iter_switch_all _ _ _ _ _ Hm Hr). simpl.
           apply Nat.eqb_neq in Hne. now rewrite Hne.
        -- apply (IH (Some x) (nextOf doc x)); [reflexivity|assumption].
    + simpl. split.
      * now rewrite (iter_switch_all _ _ _ _ _ Hm Hr).
      * apply (IH (Some x) (nextOf doc x)); [reflexivity|assumption].
Qed.

(** The walk of [getChildrenWithSiblingType] for pivot [n] over its raw
    sibling sequence. *)
Lemma steps_walked (parent : option ptr) (st : siblingType)
    (n : ptr) (l : list ptr) :
  walked doc parent st n l = true ->
  steps doc parent st (Some n) None
    (if isAllMode st then without (Some n) l else l).
Proof.
  intros H. destruct (isAllMode st) eqn:Hm.
  - destruct parent as [p|]; [|destruct st; discriminate].
    apply steps_all with (start := FirstChild (doc p));
      [assumption|reflexivity|].
    destruct st; try discriminate; exact H.
  - apply steps_directed_start; [assumption|].
    destruct st; try discriminate; exact H.
Qed.

End Steps.

(** ** The walk for one pivot *)

Section PivotWalk.

Variable doc : ptr -> Node.

Lemma visited_incl (st : siblingType) (n : ptr) (l : list ptr) (x : ptr) :
  In x (visited st n l) -> In x l.
Proof.
  unfold visited, without. destruct (isAllMode st); [|tauto].
  rewrite filter_In. tauto.
Qed.

Lemma visited_length (st : siblingType) (n : ptr) (l : list ptr) :
  length (visited st n l) <= length l.
Proof.
  unfold visited, without. destruct (isAllMode st); [|lia].
  apply filter_length_le.
Qed.

Lemma visited_not_pivot (parent : option ptr) (st : siblingType)
    (n : ptr) (l : list ptr) :
  walked doc parent st n l = true -> ~ In n (visited st n l).
Proof.
  intros H. unfold visited. destruct (isAllMode st) eqn:Hm.
  - simpl. rewrite filter_In, differs_self. intros [_ E]. discriminate.
  - apply (chain_notin (dirLink doc st)).
    destruct st; try discriminate; exact H.
Qed.

Lemma until_agrees_incl (st : siblingType) (uf : option (ptr -> res bool))
    (stop : ptr -> bool) (l l' : list ptr) :
  (forall x, In x l' -> In x l) ->
  until_agrees doc st uf stop l -> until_agrees doc st uf stop l'.
Proof.
  intros Hi H Hu. destruct (H Hu) as [f [E Hf]]. exists f. split; auto.
Qed.

Lemma walk_walked (parent : option ptr) (st : siblingType) (n : ptr)
    (uf : option (ptr -> res bool)) (stop : ptr -> bool)
    (l : list ptr) (fuel : nat) :
  walked doc parent st n l = true ->
  until_agrees doc st uf stop l ->
  length l < fuel ->
  getChildrenWithSiblingType doc fuel parent st (Some n) uf
  = Ok (walk_result doc st stop (visited st n l)).
Proof.
  intros Hw Hu Hf. apply getChildrenWithSiblingType_steps.
  - now apply steps_walked.
  - apply until_agrees_incl with (l := l); [apply visited_incl | assumption].
  - pose proof (visited_length st n l). lia.
Qed.

Lemma children_walk (p : ptr) (st : siblingType) (l : list ptr) (fuel : nat) :
  isAllMode st = true ->
  chain (nextOf doc) (FirstChild (doc p)) l = true ->
  length l < fuel ->
  getChildrenWithSiblingType doc fuel (Some p) st None None
  = Ok (candidates doc st l).
Proof.
  intros Hm Hc Hf.
  rewrite (getChildrenWithSiblingType_steps doc (Some p) st None None
             (fun _ => false) l fuel).
  - rewrite walk_result_eq. destruct st; try discriminate; reflexivity.
  - apply (steps_all doc (Some p) st None l Hm None (FirstChild (doc p)));
      [reflexivity | assumption].
  - intros Hu. destruct st; discriminate.
  - assumption.
Qed.

End PivotWalk.

(** ** One source node through [mapNodes] *)

Lemma mapNodes_pure (nodes : list ptr) (f : nat -> ptr -> res (list ptr))
    (g : ptr -> list ptr) :
  (forall i n, In n nodes -> f i n = Ok (g n)) ->
  mapNodes nodes f = Ok (keep_first (flat_map g nodes)).
Proof.
  intros Hf. unfold mapNodes.
  change (@nil ptr) with (keep_first []) at 1.
  rewrite (mapNodes_from_spec (fun _ => g)).
  - simpl. do 2 f_equal. generalize 0.
    induction nodes as [|n rest IH]; intros i; simpl; [reflexivity|].
    f_equal. apply IH. intros j m Hm. apply Hf. now right.
  - intros k n Hk. apply Hf. eapply nth_error_In. eassumption.
Qed.

Lemma mapNodes_single (n : ptr) (f : nat -> ptr -> res (list ptr))
    (r : list ptr) :
  (forall i, f i n = Ok r) -> NoDup r -> mapNodes [n] f = Ok r.
Proof.
  intros Hf Hr. rewrite (mapNodes_pure [n] f (fun _ => r)).
  - simpl. rewrite app_nil_r. fold (keep_first r).
    now rewrite keep_first_NoDup.
  - intros i m [<-|[]]. apply Hf.
Qed.

Lemma NoDup_takeUntil (stop : ptr -> bool) (l : list ptr) :
  NoDup l -> NoDup (takeUntil stop l).
Proof.
  induction 1 as [|x l Hx Hl IH]; simpl; [constructor|].
  destruct (stop x); constructor; [|assumption].
  intros Hin. apply Hx. eapply takeUntil_incl. eassumption.
Qed.

(** ** Properties of the sibling walks *)

(** C3.  In a tree whose sibling chain is finite, the walk anchored at a
    pivot returns, in every mode and whatever the stop test, and the list
    it returns for that pivot never holds the pivot itself. *)
Theorem sibling_walk_excludes_pivot
    (doc : ptr -> Node) (parent : option ptr) (st : siblingType) (n : ptr)
    (untilFunc : option (ptr -> res bool)) (stop : ptr -> bool)
    (l : list ptr) (fuel : nat)
    (Hchain : walked doc parent st n l = true)
    (Huntil : until_agrees doc st untilFunc stop l)
    (Hfuel : length l < fuel) :
  exists r,
    getChildrenWithSiblingType doc fuel parent st (Some n) untilFunc = Ok r
    /\ ~ In n r.
Proof.
  exists (walk_result doc st stop (visited st n l)). split.
  - now apply walk_walked.
  - intros Hin. apply walk_result_incl in Hin.
    now apply (visited_not_pivot doc parent st n l Hchain).
Qed.

(** C4.  For one source node, the singular walk ([siblingNext], resp.
    [siblingPrev]) returns at most one node, which is the head of what
    the matching [All] walk returns; it is empty when that one is. *)
Theorem singular_walk_is_head_of_all
    (doc : ptr -> Node) (d : direction) (parent : option ptr) (n : ptr)
    (untilFunc : option (ptr -> res bool)) (l : list ptr) (fuel : nat)
    (Hchain : walked doc parent (allOf d) n l = true)
    (Hfuel : length l < fuel) :
  exists rAll rOne,
    getChildrenWithSiblingType doc fuel parent (allOf d) (Some n) untilFunc
    = Ok rAll
    /\ getChildrenWithSiblingType doc fuel parent (singleOf d) (Some n)
         untilFunc = Ok rOne
    /\ length rOne <= 1
    /\ rOne = firstn 1 rAll
    /\ hd_error rOne = hd_error rAll
    /\ (rAll = [] -> rOne = []).
Proof.
  exists (filter (isElement doc) l), (firstn 1 (filter (isElement doc) l)).
  assert (Hone : walked doc parent (singleOf d) n l = true)
    by (destruct d; exact Hchain).
  split; [|split; [|split; [|split; [|split]]]].
  - rewrite (walk_walked doc parent (allOf d) n untilFunc (fun _ => false) l
               fuel Hchain); [|destruct d; intros Hu; discriminate|assumption].
    rewrite walk_result_eq. destruct d; reflexivity.
  - rewrite (walk_walked doc parent (singleOf d) n untilFunc (fun _ => false)
               l fuel Hone); [|destruct d; intros Hu; discriminate|assumption].
    rewrite walk_result_eq. destruct d; reflexivity.
  - apply firstn_le_length.
  - reflexivity.
  - destruct (filter (isElement doc) l); reflexivity.
  - intros ->. reflexivity.
Qed.

(** C5.  On a parent with a finite child chain [l], the walk in mode
    [siblingAllIncludingNonElements] (Contents) returns every child in
    chain order and the walk in mode [siblingAll] (Children) returns the
    subsequence of the element children; the same holds through
    [getChildrenNodes] for that one parent. *)
Theorem children_kind_filter
    (doc : ptr -> Node) (p : ptr) (l : list ptr) (fuel : nat)
    (Hchain : chain (nextOf doc) (FirstChild (doc p)) l = true)
    (Hfuel : length l < fuel) :
  getChildrenWithSiblingType doc fuel (Some p)
    siblingAllIncludingNonElements None None = Ok l
  /\ getChildrenWithSiblingType doc fuel (Some p) siblingAll None None
     = Ok (filter (isElement doc) l)
  /\ getChildrenNodes doc fuel [p] siblingAllIncludingNonElements = Ok l
  /\ getChildrenNodes doc fuel [p] siblingAll = Ok (filter (isElement doc) l).
Proof.
  pose proof (chain_NoDup _ _ _ Hchain) as Hnd.
  pose proof (children_walk doc p siblingAllIncludingNonElements l fuel
                eq_refl Hchain Hfuel) as HA.
  pose proof (children_walk doc p siblingAll l fuel eq_refl Hchain Hfuel)
    as HE.
  unfold candidates in HA, HE. simpl in HA, HE.
  repeat split; try assumption; unfold getChildrenNodes;
    apply mapNodes_single; auto using NoDup_filter.
Qed.

(** ** Doubly linked child lists *)

Lemma siblings_linked_next (doc : ptr -> Node) (l : list ptr) :
  forall prev cur,
    siblings_linked doc prev cur l = true -> chain (nextOf doc) cur l = true.
Proof.
  induction l as [|x r IH]; intros prev cur H; simpl in *; [assumption|].
  apply andb_true_iff in H. destruct H as [H Hr].
  apply andb_true_iff in H. destruct H as [Hc _].
  rewrite Hc. simpl. eapply IH. eassumption.
Qed.

Lemma siblings_linked_split (doc : ptr -> Node) (x : ptr) (b : list ptr)
    (a : list ptr) :
  forall prev cur before,
    siblings_linked doc prev cur (a ++ x :: b) = true ->
    chain (prevOf doc) prev before = true ->
    chain (prevOf doc) (PrevSibling (doc x)) (rev a ++ before) = true
    /\ chain (nextOf doc) (NextSibling (doc x)) b = true.
Proof.
  induction a as [|y a IH]; intros prev cur before H Hb; simpl in H.
  - apply andb_true_iff in H. destruct H as [H Hr].
    apply andb_true_iff in H. destruct H as [_ Hp].
    apply ptr_eq_true in Hp. rewrite Hp. split; [assumption|].
    eapply siblings_linked_next. eassumption.
  - apply andb_true_iff in H. destruct H as [H Hr].
    apply andb_true_iff in H. destruct H as [_ Hp].
    apply ptr_eq_true in Hp.
    destruct (IH (Some y) (NextSibling (doc y)) (y :: before) Hr) as [H1 H2].
    + simpl. rewrite Nat.eqb_refl. simpl. unfold prevOf at 2. now rewrite Hp.
    + split; [|assumption]. simpl. now rewrite <- app_assoc.
Qed.

Lemma filter_rev_elem (p : ptr -> bool) (l : list ptr) :
  rev (filter p (rev l)) = filter p l.
Proof.
  induction l as [|x l IH]; simpl; [reflexivity|].
  rewrite filter_app, rev_app_distr, IH. simpl.
  destruct (p x); reflexivity.
Qed.

(** C6.  For an element node [self] among the children [l] of its
    parent [p], the reversed [siblingPrevAll] walk, then [self], then
    the [siblingNextAll] walk, is the list of the element children of
    [p] in document order, which is also what the [siblingAll] walk on
    [p] returns. *)
Theorem prev_self_next_rebuilds_children
    (doc : ptr -> Node) (p self : ptr) (l : list ptr) (fuel : nat)
    (Hkids : children_of doc p l = true)
    (Hself : In self l)
    (Helem : isElement doc self = true)
    (Hfuel : length l < fuel) :
  exists prevs nexts kids,
    getChildrenWithSiblingType doc fuel (Parent (doc self)) siblingPrevAll
      (Some self) None = Ok prevs
    /\ getChildrenWithSiblingType doc fuel (Parent (doc self)) siblingNextAll
         (Some self) None = Ok nexts
    /\ getChildrenWithSiblingType doc fuel (Some p) siblingAll None None
       = Ok kids
    /\ kids = filter (isElement doc) l
    /\ rev prevs ++ [self] ++ nexts = kids.
Proof.
  unfold children_of in Hkids. apply andb_true_iff in Hkids.
  destruct Hkids as [Hlink _].
  apply in_split in Hself. destruct Hself as [a [b ->]].
  destruct (siblings_linked_split doc self b a None (FirstChild (doc p)) []
              Hlink eq_refl) as [Hprev Hnext].
  rewrite app_nil_r in Hprev.
  rewrite length_app in Hfuel. simpl in Hfuel.
  exists (filter (isElement doc) (rev a)), (filter (isElement doc) b),
         (filter (isElement doc) (a ++ self :: b)).
  split; [|split; [|split; [|split]]].
  - rewrite (walk_walked doc (Parent (doc self)) siblingPrevAll self None
               (fun _ => false) (rev a) fuel Hprev).
    + now rewrite walk_result_eq.
    + intros Hu. discriminate.
    + rewrite length_rev. lia.
  - rewrite (walk_walked doc (Parent (doc self)) siblingNextAll self None
               (fun _ => false) b fuel Hnext).
    + now rewrite walk_result_eq.
    + intros Hu. discriminate.
    + lia.
  - apply (children_walk doc p siblingAll (a ++ self :: b) fuel eq_refl).
    + eapply siblings_linked_next. eassumption.
    + rewrite length_app. simpl. lia.
  - reflexivity.
  - rewrite filter_rev_elem, filter_app. simpl. now rewrite Helem.
Qed.

Lemma NoDup_app_disjoint (a b : list ptr) (y : ptr) :
  NoDup (a ++ b) -> In y a -> ~ In y b.
Proof.
  induction a as [|x a IH]; simpl; intros Hnd Hy Hb; [contradiction|].
  inversion Hnd as [|? ? Hx Hnd']; subst. destruct Hy as [->|Hy].
  - apply Hx. apply in_or_app. now right.
  - now apply IH.
Qed.

(** ** The ancestors walk *)

Section Ancestors.

Variable doc : ptr -> Node.
Variable Is : Selection -> String.string -> res bool.
Variable IsNodes : Selection -> list ptr -> res bool.
Variable stopSelector : String.string.
Variable stopNodes : list ptr.
Variable stop : ptr -> bool.

Lemma getParentsNodes_loop_chain (anc : list ptr) :
  forall (p : option ptr) (result : list ptr) (fuel : nat),
    chain (parentOf doc) p anc = true ->
    (forall a, In a anc ->
       untilTest Is IsNodes stopSelector stopNodes a = Ok (stop a)) ->
    length anc < fuel ->
    getParentsNodes_loop doc Is IsNodes fuel stopSelector stopNodes p result
    = Ok (result ++ filter (isElement doc) (takeUntil stop anc)).
Proof.
  induction anc as [|a anc IH]; intros p result fuel Hc Hs Hf;
    (destruct fuel as [|fuel]; [simpl in Hf; lia|]).
  - apply chain_nil in Hc. subst p. simpl. now rewrite app_nil_r.
  - apply chain_cons in Hc. destruct Hc as [-> Hc].
    pose proof (Hs a (or_introl eq_refl)) as Ha. unfold untilTest in Ha.
    cbn [getParentsNodes_loop]. rewrite Ha. cbn [bind takeUntil].
    destruct (stop a); [now rewrite app_nil_r|].
    rewrite (IH (parentOf doc a)); [| assumption | | simpl in Hf; lia].
    + cbn [filter]. fold (isElement doc a).
      destruct (isElement doc a); [|reflexivity].
      now rewrite <- app_assoc.
    + intros b Hb. apply Hs. now right.
Qed.

End Ancestors.

(** C7.  The ancestors walk for source node [n] goes up the parent
    chain [anc] (parent first, root last).  [stop] is the stop condition
    as supplied: the selector test when the stop selector is not empty,
    otherwise the node-set test when the stop-node set is not empty,
    otherwise never.  The walk returns the element nodes among the
    ancestors below the first one that satisfies [stop]: it ends there
    without that ancestor or any higher one, and with no stop match it
    returns the element ancestors up to the root. *)
Theorem parents_walk_until_stop
    (doc : ptr -> Node)
    (Is : Selection -> String.string -> res bool)
    (IsNodes : Selection -> list ptr -> res bool)
    (n : ptr) (stopSelector : String.string) (stopNodes : list ptr)
    (stop : ptr -> bool) (anc : list ptr) (fuel : nat)
    (Hchain : chain (parentOf doc) (Parent (doc n)) anc = true)
    (Hsel : nonEmpty stopSelector = true -> forall a, In a anc ->
            Is (newSingleSelection a None) stopSelector = Ok (stop a))
    (Hnodes : nonEmpty stopSelector = false -> stopNodes <> [] ->
              forall a, In a anc ->
              IsNodes (newSingleSelection a None) stopNodes = Ok (stop a))
    (Hnone : nonEmpty stopSelector = false -> stopNodes = [] ->
             forall a, In a anc -> stop a = false)
    (Hfuel : length anc < fuel) :
  exists r,
    getParentsNodes_loop doc Is IsNodes fuel stopSelector stopNodes
      (Parent (doc n)) [] = Ok r
    /\ getParentsNodes doc Is IsNodes fuel [n] stopSelector stopNodes = Ok r
    /\ r = filter (isElement doc) (takeUntil stop anc)
    /\ (forall below x above,
          anc = below ++ x :: above -> stop x = true ->
          (forall y, In y below -> stop y = false) ->
          r = filter (isElement doc) below
          /\ ~ In x r /\ forall y, In y above -> ~ In y r)
    /\ ((forall a, In a anc -> stop a = false) ->
        r = filter (isElement doc) anc).
Proof.
  assert (Hstop : forall a, In a anc ->
            untilTest Is IsNodes stopSelector stopNodes a = Ok (stop a)).
  { intros a Ha. unfold untilTest.
    destruct (nonEmpty stopSelector) eqn:Es; [now apply Hsel|].
    destruct stopNodes as [|m ms] eqn:En; simpl.
    - now rewrite Hnone.
    - apply Hnodes; [reflexivity | discriminate | assumption]. }
  pose proof (getParentsNodes_loop_chain doc Is IsNodes stopSelector
                stopNodes stop anc (Parent (doc n)) [] fuel Hchain Hstop
                Hfuel) as Hloop.
  simpl in Hloop.
  pose proof (chain_NoDup _ _ _ Hchain) as Hnd.
  exists (filter (isElement doc) (takeUntil stop anc)).
  split; [exact Hloop|]. split; [|split; [reflexivity|split]].
  - unfold getParentsNodes. apply mapNodes_single.
    + intros _. exact Hloop.
    + apply NoDup_filter. now apply NoDup_takeUntil.
  - intros below x above E Hx Hbelow. subst anc.
    rewrite (takeUntil_app_stop stop below above x Hbelow Hx).
    split; [reflexivity|]. split.
    + rewrite filter_In. intros [Hin _].
      apply (NoDup_app_disjoint _ _ x Hnd Hin). now left.
    + intros y Hy. rewrite filter_In. intros [Hin _].
      apply (NoDup_app_disjoint _ _ y Hnd Hin). now right.
  - intros Hall. now rewrite takeUntil_none.
Qed.

(** ** The Until walks *)

Lemma until_walk_closed_form
    (doc : ptr -> Node) (parent : option ptr) (st : siblingType) (n : ptr)
    (f : ptr -> res bool) (stop : ptr -> bool) (l : list ptr) (fuel : nat) :
  isUntil st = true ->
  walked doc parent st n l = true ->
  (forall y, In y l -> isElement doc y = true -> f y = Ok (stop y)) ->
  length l < fuel ->
  getChildrenWithSiblingType doc fuel parent st (Some n) (Some f)
  = Ok (takeUntil stop (filter (isElement doc) l)).
Proof.
  intros Hmode Hchain Htest Hfuel.
  rewrite (walk_walked doc parent st n (Some f) stop l fuel Hchain);
    [| intros _; exists f; split; [reflexivity | exact Htest] | assumption].
  rewrite walk_result_eq, Hmode. unfold candidates, visited.
  destruct st; try discriminate; reflexivity.
Qed.

(** C2 (as amended).  In an Until mode the stop test is run on each
    candidate before it is appended and the walk ends at once when it
    holds: the result is the element siblings before the first element
    sibling [x] satisfying the stop condition; it holds neither [x] nor
    any sibling beyond [x] in the walk direction. *)
Theorem until_walk_stops_at_first_matching_element
    (doc : ptr -> Node) (parent : option ptr) (st : siblingType) (n : ptr)
    (f : ptr -> res bool) (stop : ptr -> bool) (l : list ptr) (fuel : nat)
    (below : list ptr) (x : ptr) (beyond : list ptr)
    (Hmode : isUntil st = true)
    (Hchain : walked doc parent st n l = true)
    (Htest : forall y, In y l -> isElement doc y = true -> f y = Ok (stop y))
    (Hfuel : length l < fuel)
    (Hsplit : l = below ++ x :: beyond)
    (Hx_elem : isElement doc x = true)
    (Hx_stop : stop x = true)
    (Hbelow : forall y, In y below -> isElement doc y = true ->
              stop y = false) :
  exists r,
    getChildrenWithSiblingType doc fuel parent st (Some n) (Some f) = Ok r
    /\ r = takeUntil stop (filter (isElement doc) l)
    /\ r = filter (isElement doc) below
    /\ ~ In x r
    /\ forall y, In y beyond -> ~ In y r.
Proof.
  assert (Hnd : NoDup l).
  { apply (chain_NoDup (dirLink doc st) l (dirLink doc st n)).
    destruct st; try discriminate; exact Hchain. }
  assert (Hr : takeUntil stop (filter (isElement doc) l)
               = filter (isElement doc) below).
  { subst l. rewrite filter_app. cbn [filter]. rewrite Hx_elem.
    apply takeUntil_app_stop; [|assumption].
    intros y Hy. apply filter_In in Hy. destruct Hy. now apply Hbelow. }
  exists (takeUntil stop (filter (isElement doc) l)).
  split; [now apply until_walk_closed_form|]. split; [reflexivity|].
  split; [exact Hr|]. rewrite Hr. subst l. split.
  - rewrite filter_In. intros [Hin _].
    apply (NoDup_app_disjoint _ _ x Hnd Hin). now left.
  - intros y Hy. rewrite filter_In. intros [Hin _].
    apply (NoDup_app_disjoint _ _ y Hnd Hin). now right.
Qed.

(** At any fuel and on any heap, chain or not, the iterator only hands
    element nodes to the until test. *)
Lemma iter_returns_element (doc : ptr -> Node) (parent : option ptr)
    (st : siblingType) (skipNode : option ptr) (fuel : nat) :
  isAllIncludingNonElements st = false ->
  forall cur r,
    iter doc fuel parent st skipNode cur = Ok (Some r) ->
    isElement doc r = true.
Proof.
  intros Hst. induction fuel as [|fuel IH]; intros cur r H; [discriminate|].
  simpl in H. destruct (iter_switch doc parent st skipNode cur) as [ret| |];
    try discriminate.
  simpl in H. destruct ret as [r'|]; [|discriminate].
  rewrite Hst, orb_false_r in H.
  destruct (isElementNode (Type_ (doc r'))) eqn:E.
  - injection H as <-. exact E.
  - eapply IH. eassumption.
Qed.

Lemma until_loop_ext (doc : ptr -> Node) (parent : option ptr)
    (st : siblingType) (skipNode : option ptr) (f g : ptr -> res bool) :
  isUntil st = true ->
  (forall y, isElement doc y = true -> g y = f y) ->
  forall fuel c result,
    (forall r, c = Some r -> isElement doc r = true) ->
    getChildrenWithSiblingType_loop doc fuel parent st skipNode (Some g)
      c result
    = getChildrenWithSiblingType_loop doc fuel parent st skipNode (Some f)
        c result.
Proof.
  intros Hmode Hext.
  assert (Hst : isAllIncludingNonElements st = false)
    by (destruct st; try discriminate; reflexivity).
  induction fuel as [|fuel IH]; intros c result Hc; [reflexivity|].
  simpl. destruct c as [n|]; [|reflexivity].
  rewrite Hmode, (Hext n (Hc n eq_refl)).
  destruct (f n) as [b| |]; simpl; try reflexivity.
  destruct b; [reflexivity|]. destruct (isSingle st); [reflexivity|].
  destruct (iter doc fuel parent st skipNode (Some n)) as [c'| |] eqn:Ei;
    simpl; try reflexivity.
  apply IH. intros r ->. eapply iter_returns_element; eassumption.
Qed.

Lemma until_walk_ext (doc : ptr -> Node) (parent : option ptr)
    (st : siblingType) (skipNode : option ptr) (f g : ptr -> res bool)
    (fuel : nat) :
  isUntil st = true ->
  (forall y, isElement doc y = true -> g y = f y) ->
  getChildrenWithSiblingType doc fuel parent st skipNode (Some g)
  = getChildrenWithSiblingType doc fuel parent st skipNode (Some f).
Proof.
  intros Hmode Hext. unfold getChildrenWithSiblingType.
  destruct (iter doc fuel parent st skipNode None) as [c| |] eqn:Ei;
    simpl; try reflexivity.
  apply until_loop_ext; try assumption.
  intros r ->. eapply iter_returns_element; [|eassumption].
  destruct st; try discriminate; reflexivity.
Qed.

(** C9.  In an Until walk the stop test is only run on element nodes.
    With the test constrained on the element siblings alone, the result
    is the element siblings before the first element satisfying [stop];
    a test that differs on the other nodes gives the same walk, at any
    fuel; and a
    non-element sibling [t], whatever the test says of it, is passed
    over: the walk goes on to the element siblings behind it. *)
Theorem until_test_runs_on_elements_only
    (doc : ptr -> Node) (parent : option ptr) (st : siblingType) (n : ptr)
    (f : ptr -> res bool) (stop : ptr -> bool) (l : list ptr) (fuel : nat)
    (Hmode : isUntil st = true)
    (Hchain : walked doc parent st n l = true)
    (Htest : forall y, In y l -> isElement doc y = true -> f y = Ok (stop y))
    (Hfuel : length l < fuel) :
  getChildrenWithSiblingType doc fuel parent st (Some n) (Some f)
  = Ok (takeUntil stop (filter (isElement doc) l))
  /\ (forall (g : ptr -> res bool) (fuel' : nat),
        (forall y, isElement doc y = true -> g y = f y) ->
        getChildrenWithSiblingType doc fuel' parent st (Some n) (Some g)
        = getChildrenWithSiblingType doc fuel' parent st (Some n) (Some f))
  /\ (forall a t b,
        l = a ++ t :: b -> isElement doc t = false ->
        getChildrenWithSiblingType doc fuel parent st (Some n) (Some f)
        = Ok (takeUntil stop
                (filter (isElement doc) a ++ filter (isElement doc) b))).
Proof.
  pose proof (until_walk_closed_form doc parent st n f stop l fuel Hmode
                Hchain Htest Hfuel) as Hf.
  split; [exact Hf|]. split.
  - intros g fuel' Hg. now apply until_walk_ext.
  - intros a t b E Ht. rewrite Hf. subst l.
    rewrite filter_app. cbn [filter]. now rewrite Ht.
Qed.

(** ** The descendant search *)

Lemma findWithSelector_loop_chain (doc : ptr -> Node)
    (MatchAll : Selector -> ptr -> list ptr) (sel : Selector)
    (l : list ptr) :
  forall (c : option ptr) (result : list ptr) (fuel : nat),
    chain (nextOf doc) c l = true -> length l < fuel ->
    findWithSelector_loop doc MatchAll fuel sel c result
    = Ok (result ++ found_below doc MatchAll sel l).
Proof.
  unfold found_below.
  induction l as [|a l IH]; intros c result fuel Hc Hf;
    (destruct fuel as [|fuel]; [simpl in Hf; lia|]).
  - apply chain_nil in Hc. subst c. simpl. now rewrite app_nil_r.
  - apply chain_cons in Hc. destruct Hc as [-> Hc].
    cbn [findWithSelector_loop filter]. fold (isElement doc a).
    rewrite (IH (nextOf doc a)); [|assumption|simpl in Hf; lia].
    destruct (isElement doc a); [|reflexivity].
    simpl. now rewrite <- app_assoc.
Qed.

Lemma nth_parent_up (doc : ptr -> Node) (k : nat) :
  forall x c n,
    nth_parent doc k x = Some c -> Parent (doc c) = Some n ->
    nth_parent doc (S k) x = Some n.
Proof.
  induction k as [|k IH]; intros x c n H Hp.
  - injection H as ->. simpl. now rewrite Hp.
  - cbn [nth_parent] in H |- *.
    destruct (Parent (doc x)) as [q|]; [|discriminate].
    exact (IH q c n H Hp).
Qed.

Lemma nth_parent_in_chain (doc : ptr -> Node) (k : nat) :
  forall x m anc,
    chain (parentOf doc) (Parent (doc x)) anc = true ->
    nth_parent doc (S k) x = Some m -> In m anc.
Proof.
  induction k as [|k IH]; intros x m anc Hc H; cbn [nth_parent] in H;
    destruct (Parent (doc x)) as [q|] eqn:Ex; try discriminate;
    destruct anc as [|a anc];
    try (apply chain_nil in Hc; discriminate);
    apply chain_cons in Hc; destruct Hc as [Ea Hc];
    injection Ea as <-.
  - injection H as <-. now left.
  - right. apply (IH q m anc Hc). exact H.
Qed.

Lemma not_strict_descendant_of_self (doc : ptr -> Node) (n : ptr)
    (anc : list ptr) :
  chain (parentOf doc) (Parent (doc n)) anc = true ->
  ~ strict_descendant doc n n.
Proof.
  intros Hc [k Hk].
  apply (chain_notin (parentOf doc) n anc Hc).
  eapply nth_parent_in_chain; eassumption.
Qed.

(** C8.  [findWithSelector] (behind [Find]) runs the subtree enumeration
    of the compiled selector on the element children of each source
    node and on nothing else.  With an enumeration that stays inside
    the subtree of the node it is given, every node returned lies
    strictly below some source node, and the search of a source node
    never returns that node itself. *)
Theorem find_returns_strict_descendants
    (doc : ptr -> Node)
    (MustCompile : String.string -> res Selector)
    (MatchAll : Selector -> ptr -> list ptr)
    (fuel : nat) (nodes : list ptr) (selector : String.string)
    (sel : Selector) (kids ancs : ptr -> list ptr)
    (Hcompile : MustCompile selector = Ok sel)
    (Hkids : forall n, In n nodes ->
             children_of doc n (kids n) = true /\ length (kids n) < fuel)
    (Hsub : forall n c x, In n nodes -> In c (kids n) ->
            In x (MatchAll sel c) -> in_subtree doc c x)
    (Hanc : forall n, In n nodes ->
            chain (parentOf doc) (Parent (doc n)) (ancs n) = true) :
  findWithSelector doc MustCompile MatchAll fuel nodes selector
  = Ok (keep_first
          (flat_map (fun n => found_below doc MatchAll sel (kids n)) nodes))
  /\ (forall n, In n nodes ->
        findWithSelector_loop doc MatchAll fuel sel (FirstChild (doc n)) []
        = Ok (found_below doc MatchAll sel (kids n))
        /\ ~ In n (found_below doc MatchAll sel (kids n)))
  /\ (forall x,
        In x (keep_first
                (flat_map (fun n => found_below doc MatchAll sel (kids n))
                   nodes)) ->
        exists n, In n nodes /\ strict_descendant doc n x).
Proof.
  assert (Hloop : forall n, In n nodes ->
            findWithSelector_loop doc MatchAll fuel sel (FirstChild (doc n)) []
            = Ok (found_below doc MatchAll sel (kids n))).
  { intros n Hn. destruct (Hkids n Hn) as [Hk Hlen].
    unfold children_of in Hk. apply andb_true_iff in Hk.
    destruct Hk as [Hlink _].
    apply siblings_linked_next in Hlink.
    now rewrite (findWithSelector_loop_chain doc MatchAll sel (kids n)
                   (FirstChild (doc n)) [] fuel Hlink Hlen). }
  assert (Hbelow : forall n x, In n nodes ->
            In x (found_below doc MatchAll sel (kids n)) ->
            strict_descendant doc n x).
  { intros n x Hn Hx. unfold found_below in Hx.
    apply in_flat_map in Hx. destruct Hx as [c [Hc Hx]].
    apply filter_In in Hc. destruct Hc as [Hc _].
    destruct (Hsub n c x Hn Hc Hx) as [k Hk].
    destruct (Hkids n Hn) as [Hch _].
    unfold children_of in Hch. apply andb_true_iff in Hch.
    destruct Hch as [_ Hpar]. rewrite forallb_forall in Hpar.
    specialize (Hpar c Hc). apply ptr_eq_true in Hpar.
    exists k. eapply nth_parent_up; eassumption. }
  split; [|split].
  - unfold findWithSelector. rewrite Hcompile. simpl.
    apply mapNodes_pure. intros _ n Hn. now apply Hloop.
  - intros n Hn. split; [now apply Hloop|].
    intros Hin.
    apply (not_strict_descendant_of_self doc n (ancs n) (Hanc n Hn)).
    now apply Hbelow.
  - intros x Hx. rewrite In_keep_first in Hx. apply in_flat_map in Hx.
    destruct Hx as [n [Hn Hx]]. exists n. split; [assumption|].
    now apply Hbelow.
Qed.

(** ** Nil Selection arguments *)

(** C10.  With a nil Selection argument, [NextUntilSelection],
    [PrevUntilSelection] and [ParentsUntilSelection] are the unbounded
    walks [NextAll], [PrevAll] and [Parents], while [FindSelection] and
    [ClosestSelection] return a Selection with no node, pushed on the
    receiver. *)
Theorem nil_selection_argument_asymmetry
    (doc : ptr -> Node)
    (Is : Selection -> String.string -> res bool)
    (IsNodes : Selection -> list ptr -> res bool)
    (sliceContains : list ptr -> ptr -> bool)
    (fuel : nat) (s : Selection) :
  NextUntilSelection doc Is IsNodes fuel s None = NextAll doc Is IsNodes fuel s
  /\ PrevUntilSelection doc Is IsNodes fuel s None
     = PrevAll doc Is IsNodes fuel s
  /\ ParentsUntilSelection doc Is IsNodes fuel s None
     = Parents doc Is IsNodes fuel s
  /\ (exists e, FindSelection sliceContains s None = Ok e
                /\ Nodes e = [] /\ prevSel e = Some s)
  /\ (exists e, ClosestSelection doc fuel s None = Ok e
                /\ Nodes e = [] /\ prevSel e = Some s).
Proof.
  repeat split; try reflexivity;
    exists (pushStack s []); repeat split; reflexivity.
Qed.

(** ** The Until boundary read on every sibling *)

(** C2 (as stated) fails.  In the sample document, [NextUntilNodes] from
    the p (node 3) with the text node 4 as the only stop node: node 4 is
    the first sibling on which the stop condition (membership in the
    stop-node set) holds, it is not an element, so it is passed over and
    the span and the em behind it are returned. *)
Lemma until_boundary_fails_on_non_element_stop :
  walked sample (Parent (sample 3)) siblingNextUntil 3 [4; 5; 6] = true
  /\ (forall y, sample_IsNodes (newSingleSelection y None) [4]
                = Ok (isInSlice [4] y))
  /\ getChildrenWithSiblingType sample 4 (Parent (sample 3)) siblingNextUntil
       (Some 3) (Some (untilTest sample_Is sample_IsNodes String.EmptyString [4]))
     = Ok [5; 6]
  /\ getSiblingNodes sample sample_Is sample_IsNodes 4 [3] siblingNextUntil
       String.EmptyString [4] = Ok [5; 6]
  /\ ~ excludes_from_first_stop (isInSlice [4]) [4; 5; 6] [5; 6].
Proof.
  split; [reflexivity|]. split.
  { intros y. unfold sample_IsNodes. simpl. now rewrite orb_false_r. }
  split; [reflexivity|]. split; [reflexivity|].
  intros H. destruct (H [] 4 [5; 6] eq_refl eq_refl) as [_ Hb].
  - intros y [].
  - apply (Hb 5); simpl; auto.
Qed.

(** ** The theorems at work on the sample document *)

(** Siblings of the p and of the span, merged: the em is reached from
    both and kept once. *)
Lemma mapNodes_dedup_first_occurrence_witness :
  mapNodes [3; 5]
    (fun _ n => getChildrenWithSiblingType sample 6 (Parent (sample n))
                  siblingAll (Some n) None)
  = Ok [5; 6; 3]
  /\ NoDup [5; 6; 3].
Proof.
  apply (mapNodes_dedup_first_occurrence [3; 5]
           (fun _ n => getChildrenWithSiblingType sample 6 (Parent (sample n))
                         siblingAll (Some n) None)
           (fun _ n => match n with 3 => [5; 6] | 5 => [3; 6] | _ => [] end)).
  intros [|[|i]] n H; simpl in H.
  - injection H as <-. reflexivity.
  - injection H as <-. reflexivity.
  - destruct i; discriminate.
Defined.

Lemma until_walk_stops_at_first_matching_element_witness :
  exists r,
    getChildrenWithSiblingType sample 5 (Parent (sample 6)) siblingPrevUntil
      (Some 6)
      (Some (untilTest sample_Is sample_IsNodes String.EmptyString [3]))
    = Ok r
    /\ r = takeUntil (isInSlice [3]) (filter (isElement sample) [5; 4; 3; 2])
    /\ r = filter (isElement sample) [5; 4]
    /\ ~ In 3 r
    /\ forall y, In y [2] -> ~ In y r.
Proof.
  apply (until_walk_stops_at_first_matching_element sample
           (Parent (sample 6)) siblingPrevUntil 6
           (untilTest sample_Is sample_IsNodes String.EmptyString [3])
           (isInSlice [3]) [5; 4; 3; 2] 5 [5; 4] 3 [2]).
  - reflexivity.
  - reflexivity.
  - intros y [<-|[<-|[<-|[<-|[]]]]] _; reflexivity.
  - simpl. lia.
  - reflexivity.
  - reflexivity.
  - reflexivity.
  - intros y [<-|[<-|[]]] _; reflexivity.
Defined.

Lemma sibling_walk_excludes_pivot_witness :
  exists r,
    getChildrenWithSiblingType sample 6 (Parent (sample 5)) siblingAll
      (Some 5) None = Ok r
    /\ ~ In 5 r.
Proof.
  apply (sibling_walk_excludes_pivot sample (Parent (sample 5)) siblingAll 5
           None (fun _ => false) [2; 3; 4; 5; 6] 6).
  - reflexivity.
  - intros H. discriminate H.
  - simpl. lia.
Defined.

Lemma singular_walk_is_head_of_all_witness :
  exists rAll rOne,
    getChildrenWithSiblingType sample 4 (Parent (sample 3)) siblingNextAll
      (Some 3) None = Ok rAll
    /\ getChildrenWithSiblingType sample 4 (Parent (sample 3)) siblingNext
         (Some 3) None = Ok rOne
    /\ length rOne <= 1
    /\ rOne = firstn 1 rAll
    /\ hd_error rOne = hd_error rAll
    /\ (rAll = [] -> rOne = []).
Proof.
  apply (singular_walk_is_head_of_all sample Forward (Parent (sample 3)) 3
           None [4; 5; 6] 4).
  - reflexivity.
  - simpl. lia.
Defined.

Lemma children_kind_filter_witness :
  getChildrenWithSiblingType sample 6 (Some 1)
    siblingAllIncludingNonElements None None = Ok [2; 3; 4; 5; 6]
  /\ getChildrenWithSiblingType sample 6 (Some 1) siblingAll None None
     = Ok [3; 5; 6]
  /\ getChildrenNodes sample 6 [1] siblingAllIncludingNonElements
     = Ok [2; 3; 4; 5; 6]
  /\ getChildrenNodes sample 6 [1] siblingAll = Ok [3; 5; 6].
Proof.
  apply (children_kind_filter sample 1 [2; 3; 4; 5; 6] 6).
  - reflexivity.
  - simpl. lia.
Defined.

Lemma prev_self_next_rebuilds_children_witness :
  exists prevs nexts kids,
    getChildrenWithSiblingType sample 6 (Parent (sample 5)) siblingPrevAll
      (Some 5) None = Ok prevs
    /\ getChildrenWithSiblingType sample 6 (Parent (sample 5)) siblingNextAll
         (Some 5) None = Ok nexts
    /\ getChildrenWithSiblingType sample 6 (Some 1) siblingAll None None
       = Ok kids
    /\ kids = [3; 5; 6]
    /\ rev prevs ++ [5] ++ nexts = kids.
Proof.
  apply (prev_self_next_rebuilds_children sample 1 5 [2; 3; 4; 5; 6] 6).
  - reflexivity.
  - simpl. auto 6.
  - reflexivity.
  - simpl. lia.
Defined.

(** Ancestors of the b inside the p, stopped by the selector of the div:
    only the p. *)
Lemma parents_walk_until_stop_witness :
  exists r,
    getParentsNodes_loop sample sample_Is sample_IsNodes 4 "div"%string []
      (Parent (sample 7)) [] = Ok r
    /\ getParentsNodes sample sample_Is sample_IsNodes 4 [7] "div"%string []
       = Ok r
    /\ r = [3]
    /\ (forall below x above,
          [3; 1; 0] = below ++ x :: above -> Nat.eqb 1 x = true ->
          (forall y, In y below -> Nat.eqb 1 y = false) ->
          r = filter (isElement sample) below
          /\ ~ In x r /\ forall y, In y above -> ~ In y r)
    /\ ((forall a, In a [3; 1; 0] -> Nat.eqb 1 a = false) ->
        r = filter (isElement sample) [3; 1; 0]).
Proof.
  apply (parents_walk_until_stop sample sample_Is sample_IsNodes 7
           "div"%string [] (Nat.eqb 1) [3; 1; 0] 4).
  - reflexivity.
  - intros _ a [<-|[<-|[<-|[]]]]; reflexivity.
  - intros H. discriminate H.
  - intros H. discriminate H.
  - simpl. lia.
Defined.

(** Every element below the div and below the p: the search of the div
    returns the p and what lies under it, never the div. *)
Lemma find_returns_strict_descendants_witness :
  findWithSelector sample sample_MustCompile sample_MatchAll 6 [1; 3]
    "*"%string = Ok [3; 7; 5; 6]
  /\ (forall n, In n [1; 3] ->
        findWithSelector_loop sample sample_MatchAll 6 (isElement sample)
          (FirstChild (sample n)) []
        = Ok (found_below sample sample_MatchAll (isElement sample)
                (sample_kids n))
        /\ ~ In n (found_below sample sample_MatchAll (isElement sample)
                     (sample_kids n)))
  /\ (forall x, In x [3; 7; 5; 6] ->
        exists n, In n [1; 3] /\ strict_descendant sample n x).
Proof.
  apply (find_returns_strict_descendants sample sample_MustCompile
           sample_MatchAll 6 [1; 3] "*"%string (isElement sample)
           sample_kids sample_ancs).
  - reflexivity.
  - intros n [<-|[<-|[]]]; simpl; split; try reflexivity; lia.
  - intros n c x [<-|[<-|[]]] Hc Hx; simpl in Hc;
      repeat (destruct Hc as [<-|Hc]); try contradiction;
      simpl in Hx; repeat (destruct Hx as [<-|Hx]); try contradiction;
      first [ now exists 0 | now exists 1 ].
  - intros n [<-|[<-|[]]]; reflexivity.
Defined.

(** [NextUntil] from the p with a test that would panic on the text
    node: the text node is never tested, the span is returned and the
    walk ends at the em. *)
Lemma until_test_runs_on_elements_only_witness :
  getChildrenWithSiblingType sample 4 (Parent (sample 3)) siblingNextUntil
    (Some 3) (Some sample_strict_test) = Ok [5]
  /\ (forall (g : ptr -> res bool) (fuel' : nat),
        (forall y, isElement sample y = true -> g y = sample_strict_test y) ->
        getChildrenWithSiblingType sample fuel' (Parent (sample 3))
          siblingNextUntil (Some 3) (Some g)
        = getChildrenWithSiblingType sample fuel' (Parent (sample 3))
            siblingNextUntil (Some 3) (Some sample_strict_test))
  /\ (forall a t b,
        [4; 5; 6] = a ++ t :: b -> isElement sample t = false ->
        getChildrenWithSiblingType sample 4 (Parent (sample 3))
          siblingNextUntil (Some 3) (Some sample_strict_test)
        = Ok (takeUntil (fun y => Nat.eqb y 6)
                (filter (isElement sample) a ++ filter (isElement sample) b))).
Proof.
  apply (until_test_runs_on_elements_only sample (Parent (sample 3))
           siblingNextUntil 3 sample_strict_test (fun y => Nat.eqb y 6)
           [4; 5; 6] 4).
  - reflexivity.
  - reflexivity.
  - intros y _ He. unfold sample_strict_test. now rewrite He.
  - simpl. lia.
Defined.

(** * Further properties of the traversal code *)

(** ** More on [mapNodes] *)

Lemma appendWithoutDuplicates_In (nodes target : list ptr) (x : ptr) :
  In x (appendWithoutDuplicates target nodes) <-> In x target \/ In x nodes.
Proof.
  rewrite appendWithoutDuplicates_spec, in_app_iff, In_keep_first, filter_In.
  split.
  - intros [H|[H _]]; auto.
  - intros [H|H]; [now left|].
    destruct (isInSlice target x) eqn:E.
    + left. now apply isInSlice_In.
    + right. split; [assumption | reflexivity].
Qed.

Lemma mapNodes_from_ext (f g : nat -> ptr -> res (list ptr))
    (nodes : list ptr) :
  forall i result,
    (forall k n, In n nodes -> f k n = g k n) ->
    mapNodes_from i nodes f result = mapNodes_from i nodes g result.
Proof.
  induction nodes as [|n rest IH]; intros i result H; [reflexivity|].
  simpl. rewrite (H i n (or_introl eq_refl)).
  destruct (g i n) as [vals| |]; simpl; try reflexivity.
  apply IH. intros k m Hm. apply H. now right.
Qed.

Lemma mapNodes_ext (f g : nat -> ptr -> res (list ptr)) (nodes : list ptr) :
  (forall k n, In n nodes -> f k n = g k n) ->
  mapNodes nodes f = mapNodes nodes g.
Proof. apply mapNodes_from_ext. Qed.

Lemma mapNodes_from_In (f : nat -> ptr -> res (list ptr)) (nodes : list ptr) :
  forall i acc r x,
    mapNodes_from i nodes f acc = Ok r -> In x r ->
    In x acc
    \/ exists k n vals, In n nodes /\ f k n = Ok vals /\ In x vals.
Proof.
  induction nodes as [|n rest IH]; intros i acc r x H Hx; simpl in H.
  - injection H as <-. now left.
  - destruct (f i n) as [vals| |] eqn:Ef; try discriminate. simpl in H.
    destruct (IH _ _ _ _ H Hx) as [Hacc|[k [m [vs [Hm [Hf Hv]]]]]].
    + destruct (0 <? length vals); [|now left].
      apply appendWithoutDuplicates_In in Hacc. destruct Hacc as [Ha|Hv].
      * now left.
      * right. exists i, n, vals. simpl. auto.
    + right. exists k, m, vs. simpl. auto.
Qed.

Lemma mapNodes_In (f : nat -> ptr -> res (list ptr)) (nodes : list ptr)
    (r : list ptr) (x : ptr) :
  mapNodes nodes f = Ok r -> In x r ->
  exists k n vals, In n nodes /\ f k n = Ok vals /\ In x vals.
Proof.
  intros H Hx. destruct (mapNodes_from_In f nodes 0 [] r x H Hx) as [[]|H'].
  exact H'.
Qed.

Lemma mapNodes_from_all_ok (f : nat -> ptr -> res (list ptr))
    (nodes : list ptr) :
  forall i acc r n,
    mapNodes_from i nodes f acc = Ok r -> In n nodes ->
    exists k vals, f k n = Ok vals.
Proof.
  induction nodes as [|m rest IH]; intros i acc r n H Hn; [contradiction|].
  simpl in H. destruct (f i m) as [vals| |] eqn:Ef; try discriminate.
  simpl in H. destruct Hn as [<-|Hn]; [now exists i, vals|].
  eapply IH; eassumption.
Qed.

Lemma mapNodes_from_failure (f : nat -> ptr -> res (list ptr)) (n : ptr)
    (after : list ptr) (before : list ptr) :
  forall i acc,
    (forall k m, nth_error before k = Some m ->
                 exists vals, f (i + k) m = Ok vals) ->
    (forall vals, f (i + length before) n <> Ok vals) ->
    mapNodes_from i (before ++ n :: after) f acc = f (i + length before) n.
Proof.
  induction before as [|m before IH]; intros i acc Hb Hf.
  - simpl in *. rewrite Nat.add_0_r in *.
    destruct (f i n) as [vals| |]; try reflexivity.
    exfalso. now apply (Hf vals).
  - simpl. destruct (Hb 0 m eq_refl) as [vals Hm].
    rewrite Nat.add_0_r in Hm. rewrite Hm. simpl.
    rewrite IH.
    + now rewrite Nat.add_succ_r.
    + intros k m' Hk. specialize (Hb (S k) m' Hk).
      now rewrite Nat.add_succ_r in Hb.
    + intros vs. specialize (Hf vs). simpl in Hf.
      now rewrite Nat.add_succ_r in Hf.
Qed.

(** X16.  [mapNodes] gives no partial result: when the expansion
    function returns on the source nodes before [n] and fails on [n],
    the failure at [n] is the outcome of the whole merge, whatever
    follows [n]. *)
Theorem mapNodes_propagates_first_failure
    (f : nat -> ptr -> res (list ptr)) (before : list ptr) (n : ptr)
    (after : list ptr)
    (Hbefore : forall i m, nth_error before i = Some m ->
               exists vals, f i m = Ok vals)
    (Hfail : forall vals, f (length before) n <> Ok vals) :
  mapNodes (before ++ n :: after) f = f (length before) n.
Proof.
  unfold mapNodes. now apply mapNodes_from_failure.
Qed.

(** ** What the walks return on any heap *)

Section AnyHeap.

Variable doc : ptr -> Node.

Lemma loop_returns_elements (parent : option ptr) (st : siblingType)
    (skipNode : option ptr) (untilFunc : option (ptr -> res bool)) :
  isAllIncludingNonElements st = false ->
  forall fuel c result r,
    (forall x, c = Some x -> isElement doc x = true) ->
    (forall x, In x result -> isElement doc x = true) ->
    getChildrenWithSiblingType_loop doc fuel parent st skipNode untilFunc
      c result = Ok r ->
    forall x, In x r -> isElement doc x = true.
Proof.
  intros Hst. induction fuel as [|fuel IH]; intros c result r Hc Hres H;
    [discriminate|].
  simpl in H. destruct c as [n|]; [|injection H as <-; exact Hres].
  destruct (if isUntil st
            then match untilFunc with Some f => f n | None => Panic end
            else Ok false) as [b| |]; try discriminate.
  simpl in H. destruct b; [injection H as <-; exact Hres|].
  assert (Hres' : forall x, In x (result ++ [n]) -> isElement doc x = true).
  { intros x Hx. apply in_app_iff in Hx. destruct Hx as [Hx|[<-|[]]].
    - now apply Hres.
    - now apply Hc. }
  destruct (isSingle st); [injection H as <-; exact Hres'|].
  destruct (iter doc fuel parent st skipNode (Some n)) as [c'| |] eqn:Ei;
    try discriminate.
  simpl in H. apply (IH c' (result ++ [n]) r); try assumption.
  intros x ->. eapply iter_returns_element; eassumption.
Qed.

Lemma walk_returns_elements (fuel : nat) (parent : option ptr)
    (st : siblingType) (skipNode : option ptr)
    (untilFunc : option (ptr -> res bool)) (r : list ptr) :
  isAllIncludingNonElements st = false ->
  getChildrenWithSiblingType doc fuel parent st skipNode untilFunc = Ok r ->
  forall x, In x r -> isElement doc x = true.
Proof.
  intros Hst H. unfold getChildrenWithSiblingType in H.
  destruct (iter doc fuel parent st skipNode None) as [c| |] eqn:Ei;
    try discriminate.
  simpl in H.
  apply (loop_returns_elements parent st skipNode untilFunc Hst fuel c [] r);
    try assumption.
  - intros x ->. eapply iter_returns_element; eassumption.
  - intros x [].
Qed.

Lemma parents_loop_returns_elements
    (Is : Selection -> String.string -> res bool)
    (IsNodes : Selection -> list ptr -> res bool)
    (stopSelector : String.string) (stopNodes : list ptr) :
  forall fuel p result r,
    (forall x, In x result -> isElement doc x = true) ->
    getParentsNodes_loop doc Is IsNodes fuel stopSelector stopNodes p result
    = Ok r ->
    forall x, In x r -> isElement doc x = true.
Proof.
  induction fuel as [|fuel IH]; intros p result r Hres H; [discriminate|].
  simpl in H. destruct p as [a|]; [|injection H as <-; exact Hres].
  destruct (if nonEmpty stopSelector
            then Is (newSingleSelection a None) stopSelector
            else if 0 <? length stopNodes
                 then IsNodes (newSingleSelection a None) stopNodes
                 else Ok false) as [b| |]; try discriminate.
  simpl in H. destruct b; [injection H as <-; exact Hres|].
  refine (IH _ _ _ _ H).
  destruct (isElementNode (Type_ (doc a))) eqn:Ea; [|exact Hres].
  intros x Hx. apply in_app_iff in Hx. destruct Hx as [Hx|[<-|[]]].
  - now apply Hres.
  - exact Ea.
Qed.

End AnyHeap.

(** X1.  Apart from Contents ([siblingAllIncludingNonElements]), the
    traversals only return element nodes: whatever the heap and the
    fuel, every node in a list returned by [getSiblingNodes] or
    [getChildrenNodes] in another mode, by [getParentsNodes] or by
    [getParentNodes] is an element. *)
Theorem traversals_return_elements_only
    (doc : ptr -> Node)
    (Is : Selection -> String.string -> res bool)
    (IsNodes : Selection -> list ptr -> res bool)
    (fuel : nat) (nodes : list ptr) (st : siblingType)
    (selector : String.string) (stopNodes : list ptr) (r : list ptr)
    (Hmode : isAllIncludingNonElements st = false)
    (Hret : getSiblingNodes doc Is IsNodes fuel nodes st selector stopNodes
            = Ok r
            \/ getChildrenNodes doc fuel nodes st = Ok r
            \/ getParentsNodes doc Is IsNodes fuel nodes selector stopNodes
               = Ok r
            \/ getParentNodes doc nodes = Ok r) :
  forall x, In x r -> isElement doc x = true.
Proof.
  intros x Hx. destruct Hret as [H|[H|[H|H]]];
    destruct (mapNodes_In _ _ _ _ H Hx) as [k [n [vals [_ [Hf Hv]]]]].
  - eapply walk_returns_elements; eassumption.
  - eapply walk_returns_elements; eassumption.
  - eapply parents_loop_returns_elements; [|eassumption|eassumption].
    intros y [].
  - destruct (Parent (doc n)) as [p|]; [|injection Hf as <-; destruct Hv].
    destruct (isElementNode (Type_ (doc p))) eqn:Ep;
      injection Hf as <-; [|destruct Hv].
    destruct Hv as [<-|[]]. exact Ep.
Qed.

Lemma traversals_return_elements_only_witness :
  getSiblingNodes sample sample_Is sample_IsNodes 6 [5] siblingAll
    String.EmptyString [] = Ok [3; 6]
  /\ (forall x, In x [3; 6] -> isElement sample x = true).
Proof.
  split; [reflexivity|].
  apply (traversals_return_elements_only sample sample_Is sample_IsNodes 6
           [5] siblingAll String.EmptyString [] [3; 6]).
  - reflexivity.
  - left. reflexivity.
Defined.

(** ** Until walks without a stop condition *)

Section UntilWithoutStop.

Variable doc : ptr -> Node.
Variable parent skipNode : option ptr.
Variable d : direction.

Lemma iter_until_all (fuel : nat) (cur : option ptr) :
  iter doc fuel parent (untilOf d) skipNode cur
  = iter doc fuel parent (allOf d) skipNode cur.
Proof.
  revert cur. induction fuel as [|fuel IH]; intros cur; [reflexivity|].
  simpl. replace (iter_switch doc parent (untilOf d) skipNode cur)
    with (iter_switch doc parent (allOf d) skipNode cur)
    by (destruct d; reflexivity).
  destruct (iter_switch doc parent (allOf d) skipNode cur) as [ret| |];
    simpl; try reflexivity.
  destruct ret as [r|]; [|reflexivity].
  replace (isAllIncludingNonElements (untilOf d))
    with (isAllIncludingNonElements (allOf d)) by (destruct d; reflexivity).
  destruct (isElementNode (Type_ (doc r)) || isAllIncludingNonElements (allOf d));
    [reflexivity | apply IH].
Qed.

Lemma loop_until_all (f : ptr -> res bool)
    (untilFunc : option (ptr -> res bool)) :
  (forall y, f y = Ok false) ->
  forall fuel c result,
    getChildrenWithSiblingType_loop doc fuel parent (untilOf d) skipNode
      (Some f) c result
    = getChildrenWithSiblingType_loop doc fuel parent (allOf d) skipNode
        untilFunc c result.
Proof.
  intros Hf. induction fuel as [|fuel IH]; intros c result; [reflexivity|].
  simpl. destruct c as [n|]; [|reflexivity].
  replace (isUntil (untilOf d)) with true by (destruct d; reflexivity).
  replace (isUntil (allOf d)) with false by (destruct d; reflexivity).
  rewrite Hf. simpl.
  replace (isSingle (untilOf d)) with false by (destruct d; reflexivity).
  replace (isSingle (allOf d)) with false by (destruct d; reflexivity).
  rewrite iter_until_all.
  destruct (iter doc fuel parent (allOf d) skipNode (Some n)) as [c'| |];
    simpl; try reflexivity.
  apply IH.
Qed.

Lemma walk_until_all (f : ptr -> res bool)
    (untilFunc : option (ptr -> res bool)) (fuel : nat) :
  (forall y, f y = Ok false) ->
  getChildrenWithSiblingType doc fuel parent (untilOf d) skipNode (Some f)
  = getChildrenWithSiblingType doc fuel parent (allOf d) skipNode untilFunc.
Proof.
  intros Hf. unfold getChildrenWithSiblingType. rewrite iter_until_all.
  destruct (iter doc fuel parent (allOf d) skipNode None) as [c| |];
    simpl; try reflexivity.
  now apply loop_until_all.
Qed.

End UntilWithoutStop.

(** X2.  An Until operation given neither a stop selector nor a stop node
    is the unbounded walk, on every heap and at every fuel:
    [NextUntil("")] and [NextUntilNodes()] are [NextAll],
    [PrevUntil("")] and [PrevUntilNodes()] are [PrevAll], and an
    UntilSelection with a Selection that holds no node is the same as
    with a nil Selection. *)
Theorem until_without_stop_is_all
    (doc : ptr -> Node)
    (Is : Selection -> String.string -> res bool)
    (IsNodes : Selection -> list ptr -> res bool)
    (fuel : nat) (s : Selection) :
  NextUntil doc Is IsNodes fuel s String.EmptyString
  = NextAll doc Is IsNodes fuel s
  /\ NextUntilNodes doc Is IsNodes fuel s [] = NextAll doc Is IsNodes fuel s
  /\ PrevUntil doc Is IsNodes fuel s String.EmptyString
     = PrevAll doc Is IsNodes fuel s
  /\ PrevUntilNodes doc Is IsNodes fuel s [] = PrevAll doc Is IsNodes fuel s
  /\ (forall e, Nodes e = [] ->
        NextUntilSelection doc Is IsNodes fuel s (Some e)
        = NextUntilSelection doc Is IsNodes fuel s None
        /\ PrevUntilSelection doc Is IsNodes fuel s (Some e)
           = PrevUntilSelection doc Is IsNodes fuel s None).
Proof.
  assert (HN : getSiblingNodes doc Is IsNodes fuel (Nodes s) siblingNextUntil
                 String.EmptyString []
               = getSiblingNodes doc Is IsNodes fuel (Nodes s) siblingNextAll
                   String.EmptyString []).
  { unfold getSiblingNodes. apply mapNodes_ext. intros k n _.
    now apply (walk_until_all doc (Parent (doc n)) (Some n) Forward). }
  assert (HP : getSiblingNodes doc Is IsNodes fuel (Nodes s) siblingPrevUntil
                 String.EmptyString []
               = getSiblingNodes doc Is IsNodes fuel (Nodes s) siblingPrevAll
                   String.EmptyString []).
  { unfold getSiblingNodes. apply mapNodes_ext. intros k n _.
    now apply (walk_until_all doc (Parent (doc n)) (Some n) Backward). }
  unfold NextUntil, NextUntilNodes, PrevUntil, PrevUntilNodes, NextAll,
    PrevAll.
  repeat split; try (now rewrite HN); try (now rewrite HP);
    simpl; unfold NextUntilNodes, PrevUntilNodes, NextAll, PrevAll;
    rewrite H; [now rewrite HN | now rewrite HP].
Qed.

(** ** The parent argument *)

Section ParentArgument.

Variable doc : ptr -> Node.
Variable st : siblingType.
Variable skipNode : option ptr.
Variable untilFunc : option (ptr -> res bool).
Hypothesis Hdirected : isAllMode st = false.

Lemma iter_switch_ignores_parent (p p' cur : option ptr) :
  iter_switch doc p st skipNode cur = iter_switch doc p' st skipNode cur.
Proof. destruct st; try discriminate; reflexivity. Qed.

Lemma iter_ignores_parent (p p' : option ptr) (fuel : nat) :
  forall cur,
    iter doc fuel p st skipNode cur = iter doc fuel p' st skipNode cur.
Proof.
  induction fuel as [|fuel IH]; intros cur; [reflexivity|].
  simpl. rewrite (iter_switch_ignores_parent p p').
  destruct (iter_switch doc p' st skipNode cur) as [ret| |]; simpl;
    try reflexivity.
  destruct ret as [r|]; [|reflexivity].
  destruct (isElementNode (Type_ (doc r)) || isAllIncludingNonElements st);
    [reflexivity | apply IH].
Qed.

Lemma loop_ignores_parent (p p' : option ptr) (fuel : nat) :
  forall c result,
    getChildrenWithSiblingType_loop doc fuel p st skipNode untilFunc c result
    = getChildrenWithSiblingType_loop doc fuel p' st skipNode untilFunc
        c result.
Proof.
  induction fuel as [|fuel IH]; intros c result; [reflexivity|].
  simpl. destruct c as [n|]; [|reflexivity].
  destruct (if isUntil st
            then match untilFunc with Some f => f n | None => Panic end
            else Ok false) as [b| |]; simpl; try reflexivity.
  destruct b; [reflexivity|]. destruct (isSingle st); [reflexivity|].
  rewrite (iter_ignores_parent p p').
  destruct (iter doc fuel p' st skipNode (Some n)) as [c'| |]; simpl;
    try reflexivity.
  apply IH.
Qed.

End ParentArgument.

(** X7.  The [Next] and [Prev] modes (single, All and Until) never read
    the parent: the walk from a pivot is the same for every [parent]
    argument, nil included, on every heap and at every fuel.  A node
    without a parent is walked like any other. *)
Theorem directed_walk_ignores_parent
    (doc : ptr -> Node) (st : siblingType) (skipNode : option ptr)
    (untilFunc : option (ptr -> res bool)) (parent parent' : option ptr)
    (fuel : nat)
    (Hdirected : isAllMode st = false) :
  getChildrenWithSiblingType doc fuel parent st skipNode untilFunc
  = getChildrenWithSiblingType doc fuel parent' st skipNode untilFunc.
Proof.
  unfold getChildrenWithSiblingType.
  rewrite (iter_ignores_parent doc st skipNode Hdirected parent parent').
  destruct (iter doc fuel parent' st skipNode None) as [c| |]; simpl;
    try reflexivity.
  now apply loop_ignores_parent.
Qed.

Lemma directed_walk_ignores_parent_witness :
  getChildrenWithSiblingType sample 4 (Some 1) siblingNextAll (Some 3) None
  = getChildrenWithSiblingType sample 4 None siblingNextAll (Some 3) None.
Proof.
  apply (directed_walk_ignores_parent sample siblingNextAll (Some 3) None
           (Some 1) None 4).
  reflexivity.
Defined.

(** ** Siblings of a node without a parent *)

(** X6.  [Siblings] dereferences the parent of every source node
    ([parent.FirstChild]): when the selection holds a node without a
    parent, such as the document node, it never returns a Selection, and
    when that node comes first it panics. *)
Theorem siblings_of_parentless_node_panics
    (doc : ptr -> Node)
    (Is : Selection -> String.string -> res bool)
    (IsNodes : Selection -> list ptr -> res bool)
    (fuel : nat) (s : Selection) (n : ptr)
    (Hin : In n (Nodes s))
    (Hroot : Parent (doc n) = None) :
  (forall e, Siblings doc Is IsNodes fuel s <> Ok e)
  /\ (hd_error (Nodes s) = Some n -> 0 < fuel ->
      Siblings doc Is IsNodes fuel s = Panic).
Proof.
  split.
  - intros e H. unfold Siblings, pushed, getSiblingNodes in H.
    destruct (mapNodes (Nodes s) _) as [r| |] eqn:Em; try discriminate.
    destruct (mapNodes_from_all_ok _ _ _ _ _ n Em Hin) as [k [vals Hv]].
    rewrite Hroot in Hv. destruct fuel; discriminate.
  - intros Hhd Hfuel. unfold Siblings, getSiblingNodes.
    destruct (Nodes s) as [|m rest]; [discriminate|].
    injection Hhd as ->. unfold mapNodes. simpl. rewrite Hroot.
    destruct fuel; [lia | reflexivity].
Qed.

Lemma siblings_of_parentless_node_panics_witness :
  (forall e, Siblings sample sample_Is sample_IsNodes 5
               (mkSelection [0] None None) <> Ok e)
  /\ (hd_error [0] = Some 0 -> 0 < 5 ->
      Siblings sample sample_Is sample_IsNodes 5 (mkSelection [0] None None)
      = Panic).
Proof.
  apply (siblings_of_parentless_node_panics sample sample_Is sample_IsNodes 5
           (mkSelection [0] None None) 0).
  - simpl. now left.
  - reflexivity.
Defined.

(** ** How the sibling operations relate *)

Lemma takeUntil_split (stop : ptr -> bool) (l : list ptr) :
  exists rest,
    l = takeUntil stop l ++ rest
    /\ (forall x, In x (takeUntil stop l) -> stop x = false)
    /\ (forall x, hd_error rest = Some x -> stop x = true).
Proof.
  induction l as [|y l [rest [E [Hb Hr]]]]; simpl.
  - exists []. repeat split; [intros x [] | intros x H; discriminate].
  - destruct (stop y) eqn:Ey.
    + exists (y :: l). repeat split; [intros x [] |].
      intros x H. simpl in H. injection H as <-. exact Ey.
    + exists rest. repeat split; [simpl; now rewrite <- E | | exact Hr].
      intros x [<-|Hx]; [exact Ey | now apply Hb].
Qed.

(** X3.  For one pivot, what the Until walk returns is a prefix of what
    the All walk in the same direction returns: no returned node
    satisfies the stop test, and the first node of the All walk that is
    missing, when there is one, satisfies it. *)
Theorem until_result_is_prefix_of_all
    (doc : ptr -> Node) (d : direction) (parent : option ptr) (n : ptr)
    (f : ptr -> res bool) (stop : ptr -> bool) (l : list ptr) (fuel : nat)
    (Hchain : walked doc parent (allOf d) n l = true)
    (Htest : forall y, In y l -> isElement doc y = true -> f y = Ok (stop y))
    (Hfuel : length l < fuel) :
  exists rUntil rAll rest,
    getChildrenWithSiblingType doc fuel parent (untilOf d) (Some n) (Some f)
    = Ok rUntil
    /\ getChildrenWithSiblingType doc fuel parent (allOf d) (Some n) None
       = Ok rAll
    /\ rAll = rUntil ++ rest
    /\ (forall x, In x rUntil -> stop x = false)
    /\ (forall x, hd_error rest = Some x -> stop x = true).
Proof.
  destruct (takeUntil_split stop (filter (isElement doc) l))
    as [rest [E [Hb Hr]]].
  exists (takeUntil stop (filter (isElement doc) l)),
         (filter (isElement doc) l), rest.
  split; [|split; [|split; [exact E | split; assumption]]].
  - apply until_walk_closed_form; try assumption;
      destruct d; try reflexivity; exact Hchain.
  - rewrite (walk_walked doc parent (allOf d) n None (fun _ => false) l fuel
               Hchain); [|destruct d; intros Hu; discriminate|assumption].
    rewrite walk_result_eq. destruct d; reflexivity.
Qed.

Lemma until_result_is_prefix_of_all_witness :
  exists rUntil rAll rest,
    getChildrenWithSiblingType sample 4 (Parent (sample 3)) siblingNextUntil
      (Some 3) (Some sample_strict_test) = Ok rUntil
    /\ getChildrenWithSiblingType sample 4 (Parent (sample 3)) siblingNextAll
         (Some 3) None = Ok rAll
    /\ rAll = rUntil ++ rest
    /\ (forall x, In x rUntil -> Nat.eqb x 6 = false)
    /\ (forall x, hd_error rest = Some x -> Nat.eqb x 6 = true).
Proof.
  apply (until_result_is_prefix_of_all sample Forward (Parent (sample 3)) 3
           sample_strict_test (fun y => Nat.eqb y 6) [4; 5; 6] 4).
  - reflexivity.
  - intros y _ He. unfold sample_strict_test. now rewrite He.
  - simpl. lia.
Defined.

Lemma children_of_parent (doc : ptr -> Node) (p : ptr) (l : list ptr)
    (n : ptr) :
  children_of doc p l = true -> In n l -> Parent (doc n) = Some p.
Proof.
  unfold children_of. intros H Hn. apply andb_true_iff in H.
  destruct H as [_ H]. rewrite forallb_forall in H.
  apply ptr_eq_true. now apply H.
Qed.

Lemma children_of_chain (doc : ptr -> Node) (p : ptr) (l : list ptr) :
  children_of doc p l = true ->
  chain (nextOf doc) (FirstChild (doc p)) l = true.
Proof.
  unfold children_of. intros H. apply andb_true_iff in H.
  destruct H as [H _]. eapply siblings_linked_next. eassumption.
Qed.

Lemma siblings_walk (doc : ptr -> Node) (p : ptr) (l : list ptr) (n : ptr)
    (fuel : nat) :
  children_of doc p l = true -> In n l -> length l < fuel ->
  getChildrenWithSiblingType doc fuel (Parent (doc n)) siblingAll (Some n)
    None
  = Ok (element_siblings doc l n).
Proof.
  intros Hk Hn Hf. rewrite (children_of_parent doc p l n Hk Hn).
  rewrite (walk_walked doc (Some p) siblingAll n None (fun _ => false) l fuel).
  - now rewrite walk_result_eq.
  - now apply children_of_chain.
  - intros Hu. discriminate.
  - assumption.
Qed.



(** X5.  [Siblings] of several children of one parent: a node is
    returned exactly when it is an element child of that parent other
    than some source node.  So with two or more source nodes the element
    source nodes are themselves returned, each node once. *)
Theorem siblings_of_several_children
    (doc : ptr -> Node)
    (Is : Selection -> String.string -> res bool)
    (IsNodes : Selection -> list ptr -> res bool)
    (p : ptr) (l nodes : list ptr) (fuel : nat)
    (Hkids : children_of doc p l = true)
    (Hnodes : forall n, In n nodes -> In n l)
    (Hfuel : length l < fuel) :
  exists r,
    getSiblingNodes doc Is IsNodes fuel nodes siblingAll String.EmptyString []
    = Ok r
    /\ r = keep_first (flat_map (element_siblings doc l) nodes)
    /\ NoDup r
    /\ (forall x, In x r <->
          isElement doc x = true /\ In x l
          /\ exists n, In n nodes /\ n <> x)
    /\ (forall a b, In a nodes -> In b nodes -> a <> b ->
        isElement doc a = true -> In a r).
Proof.
  exists (keep_first (flat_map (element_siblings doc l) nodes)).
  assert (Hmem : forall x,
            In x (keep_first (flat_map (element_siblings doc l) nodes)) <->
            isElement doc x = true /\ In x l
            /\ exists n, In n nodes /\ n <> x).
  { intros x. rewrite In_keep_first, in_flat_map. unfold element_siblings.
    split.
    - intros [n [Hn Hx]]. rewrite !filter_In in Hx.
      destruct Hx as [[Hl Hd] He]. repeat split; try assumption.
      exists n. split; [assumption|]. intros ->.
      now rewrite differs_self in Hd.
    - intros [He [Hl [n [Hn Hne]]]]. exists n. split; [assumption|].
      rewrite !filter_In. repeat split; try assumption.
      apply differs_other. congruence. }
  split; [|split; [reflexivity|split; [apply NoDup_keep_first|split]]].
  - unfold getSiblingNodes. simpl. apply mapNodes_pure.
    intros _ n Hn. apply (siblings_walk doc p l n fuel Hkids (Hnodes n Hn) Hfuel).
  - exact Hmem.
  - intros a b Ha Hb Hab He. apply Hmem. repeat split; auto.
    exists b. split; [assumption | congruence].
Qed.

Lemma siblings_of_several_children_witness :
  exists r,
    getSiblingNodes sample sample_Is sample_IsNodes 6 [3; 5] siblingAll
      String.EmptyString [] = Ok r
    /\ r = [5; 6; 3]
    /\ NoDup r
    /\ (forall x, In x r <->
          isElement sample x = true /\ In x [2; 3; 4; 5; 6]
          /\ exists n, In n [3; 5] /\ n <> x)
    /\ (forall a b, In a [3; 5] -> In b [3; 5] -> a <> b ->
        isElement sample a = true -> In a r).
Proof.
  apply (siblings_of_several_children sample sample_Is sample_IsNodes 1
           [2; 3; 4; 5; 6] [3; 5] 6).
  - reflexivity.
  - intros n [<-|[<-|[]]]; simpl; auto 6.
  - simpl. lia.
Defined.

(** ** Parent and Closest *)



Lemma closest_loop_chain (doc : ptr -> Node) (test : ptr -> bool)
    (l : list ptr) :
  forall c fuel,
    chain (parentOf doc) c l = true -> length l < fuel ->
    closest_loop doc fuel test c = Ok (first_match test l).
Proof.
  unfold first_match.
  induction l as [|a l IH]; intros c fuel Hc Hf;
    (destruct fuel as [|fuel]; [simpl in Hf; lia|]).
  - apply chain_nil in Hc. now subst c.
  - apply chain_cons in Hc. destruct Hc as [-> Hc]. simpl.
    destruct (test a); [reflexivity|].
    apply IH; [exact Hc | simpl in Hf; lia].
Qed.

Lemma NoDup_first_match (test : ptr -> bool) (l : list ptr) :
  NoDup (first_match test l).
Proof.
  unfold first_match. destruct (find test l); repeat constructor.
  intros [].
Qed.

(** X9.  [Closest] and [ClosestNodes] return, for each source node, the
    first node that passes the test among the node itself and then its
    ancestors from the parent up to the root: the node itself when it
    passes, nothing when none passes; the per-source results are merged
    without duplicates. *)
Theorem closest_returns_first_match
    (doc : ptr -> Node)
    (MustCompile : String.string -> res Selector)
    (fuel : nat) (s : Selection) (ancs : ptr -> list ptr)
    (selector : String.string) (cs : Selector) (nodes : list ptr)
    (Hanc : forall n, In n (Nodes s) ->
            chain (parentOf doc) (Parent (doc n)) (ancs n) = true
            /\ S (length (ancs n)) < fuel)
    (Hcompile : MustCompile selector = Ok cs) :
  Closest doc MustCompile fuel s selector
  = Ok (pushStack s
          (keep_first
             (flat_map (fun n => first_match cs (n :: ancs n)) (Nodes s))))
  /\ ClosestNodes doc fuel s nodes
     = Ok (pushStack s
             (keep_first
                (flat_map (fun n => first_match (isInSlice nodes) (n :: ancs n))
                   (Nodes s))))
  /\ (forall n, In n (Nodes s) -> cs n = true ->
      closest_loop doc fuel cs (Some n) = Ok [n]).
Proof.
  assert (Hloop : forall test n, In n (Nodes s) ->
            closest_loop doc fuel test (Some n)
            = Ok (first_match test (n :: ancs n))).
  { intros test n Hn. destruct (Hanc n Hn) as [Hc Hf].
    apply closest_loop_chain; [|simpl; lia].
    apply chain_cons. split; [reflexivity | exact Hc]. }
  split; [|split].
  - unfold Closest. rewrite Hcompile. simpl. unfold pushed.
    rewrite (mapNodes_pure (Nodes s) _
               (fun n => first_match cs (n :: ancs n))); [reflexivity|].
    intros _ n Hn. now apply Hloop.
  - unfold ClosestNodes, pushed.
    rewrite (mapNodes_pure (Nodes s) _
               (fun n => first_match (isInSlice nodes) (n :: ancs n)));
      [reflexivity|].
    intros _ n Hn. now apply Hloop.
  - intros n Hn Hcs. rewrite (Hloop cs n Hn). unfold first_match. simpl.
    now rewrite Hcs.
Qed.

(** Closest from the b inside the p and from the span, with the
    selector of the div: both reach the div, returned once. *)
Lemma closest_returns_first_match_witness :
  Closest sample sample_MustCompile 5 (mkSelection [7; 5] None None)
    "div"%string
  = Ok (pushStack (mkSelection [7; 5] None None) [1])
  /\ ClosestNodes sample 5 (mkSelection [7; 5] None None) [3; 5]
     = Ok (pushStack (mkSelection [7; 5] None None) [3; 5])
  /\ (forall n, In n [7; 5] -> Nat.eqb 1 n = true ->
      closest_loop sample 5 (Nat.eqb 1) (Some n) = Ok [n]).
Proof.
  apply (closest_returns_first_match sample sample_MustCompile 5
           (mkSelection [7; 5] None None) sample_ancs "div"%string
           (Nat.eqb 1) [3; 5]).
  - intros n [<-|[<-|[]]]; simpl; split; try reflexivity; lia.
  - reflexivity.
Defined.

Lemma closest_loop_sound (doc : ptr -> Node) (test : ptr -> bool)
    (fuel : nat) :
  forall n r,
    closest_loop doc fuel test (Some n) = Ok r ->
    length r <= 1
    /\ forall x, In x r -> test x = true /\ in_subtree doc x n.
Proof.
  induction fuel as [|fuel IH]; intros n r H; [discriminate|].
  simpl in H. destruct (test n) eqn:Et.
  - injection H as <-. split; [simpl; lia|].
    intros x [<-|[]]. split; [exact Et | now exists 0].
  - destruct (Parent (doc n)) as [p|] eqn:Ep.
    + destruct (IH p r H) as [Hlen Hin]. split; [exact Hlen|].
      intros x Hx. destruct (Hin x Hx) as [Hx1 [k Hk]].
      split; [exact Hx1|]. exists (S k). simpl. now rewrite Ep.
    + destruct fuel; [discriminate|]. injection H as <-.
      split; [simpl; lia | intros x []].
Qed.

Lemma keep_first_length (l : list ptr) : length (keep_first l) <= length l.
Proof.
  induction l as [|x l IH]; simpl; [lia|].
  pose proof (filter_length_le (differs x) (keep_first l)). lia.
Qed.

Lemma mapNodes_from_length (f : nat -> ptr -> res (list ptr))
    (nodes : list ptr) :
  (forall k n vals, f k n = Ok vals -> length vals <= 1) ->
  forall i acc r,
    mapNodes_from i nodes f acc = Ok r ->
    length r <= length acc + length nodes.
Proof.
  intros Hf. induction nodes as [|n rest IH]; intros i acc r H; simpl in H.
  - injection H as <-. simpl. lia.
  - destruct (f i n) as [vals| |] eqn:Ef; try discriminate. simpl in H.
    apply IH in H. pose proof (Hf i n vals Ef) as Hv. simpl.
    assert (Hacc : length (if 0 <? length vals
                           then appendWithoutDuplicates acc vals else acc)
                   <= length acc + 1).
    { destruct (0 <? length vals); [|lia].
      rewrite appendWithoutDuplicates_spec, length_app.
      pose proof (keep_first_length
                    (filter (fun y => negb (isInSlice acc y)) vals)).
      pose proof (filter_length_le (fun y => negb (isInSlice acc y)) vals).
      lia. }
    lia.
Qed.

(** X10.  On any heap and at any fuel, when [ClosestNodes] returns, its
    Selection holds at most one node per source node, and every node in
    it is one of the [nodes] given and is a source node or an ancestor
    of one. *)
Theorem closestNodes_result_sound
    (doc : ptr -> Node) (fuel : nat) (s e : Selection) (nodes : list ptr)
    (Hret : ClosestNodes doc fuel s nodes = Ok e) :
  length (Nodes e) <= length (Nodes s)
  /\ forall x, In x (Nodes e) ->
       In x nodes /\ exists n, In n (Nodes s) /\ in_subtree doc x n.
Proof.
  unfold ClosestNodes, pushed in Hret.
  destruct (mapNodes (Nodes s) _) as [r| |] eqn:Em; try discriminate.
  injection Hret as <-. simpl. split.
  - apply (mapNodes_from_length _ (Nodes s)) in Em; [simpl in Em; lia|].
    intros k n vals H. now apply closest_loop_sound in H.
  - intros x Hx.
    destruct (mapNodes_In _ _ _ _ Em Hx) as [k [n [vals [Hn [Hf Hv]]]]].
    apply closest_loop_sound in Hf. destruct Hf as [_ Hf].
    destruct (Hf x Hv) as [Ht Hs]. split.
    + now apply isInSlice_In.
    + now exists n.
Qed.

Lemma closestNodes_result_sound_witness :
  length [3; 5] <= length [7; 5]
  /\ forall x, In x [3; 5] ->
       In x [3; 5; 0] /\ exists n, In n [7; 5] /\ in_subtree sample x n.
Proof.
  apply (closestNodes_result_sound sample 5 (mkSelection [7; 5] None None)
           (pushStack (mkSelection [7; 5] None None) [3; 5]) [3; 5; 0]).
  reflexivity.
Defined.

(** ** Children and Contents of several parents *)

Lemma flat_map_filter (p : ptr -> bool) (kids : ptr -> list ptr)
    (nodes : list ptr) :
  flat_map (fun n => filter p (kids n)) nodes
  = filter p (flat_map kids nodes).
Proof.
  induction nodes as [|n rest IH]; simpl; [reflexivity|].
  now rewrite filter_app, IH.
Qed.

Lemma children_walks (doc : ptr -> Node) (kids : ptr -> list ptr)
    (nodes : list ptr) (fuel : nat) :
  (forall n, In n nodes ->
     chain (nextOf doc) (FirstChild (doc n)) (kids n) = true
     /\ length (kids n) < fuel) ->
  getChildrenNodes doc fuel nodes siblingAllIncludingNonElements
  = Ok (keep_first (flat_map kids nodes))
  /\ getChildrenNodes doc fuel nodes siblingAll
     = Ok (filter (isElement doc) (keep_first (flat_map kids nodes))).
Proof.
  intros H. unfold getChildrenNodes. split.
  - apply mapNodes_pure. intros _ n Hn. destruct (H n Hn) as [Hc Hf].
    now rewrite (children_walk doc n siblingAllIncludingNonElements (kids n)
                   fuel eq_refl Hc Hf).
  - rewrite <- keep_first_filter, <- flat_map_filter.
    apply mapNodes_pure. intros _ n Hn. destruct (H n Hn) as [Hc Hf].
    now rewrite (children_walk doc n siblingAll (kids n) fuel eq_refl Hc Hf).
Qed.

(** X12.  For any selection whose nodes have finite child chains,
    [Children] is [Contents] with the nodes that are not elements left
    out, in the same order. *)
Theorem children_is_contents_filtered
    (doc : ptr -> Node) (kids : ptr -> list ptr) (s : Selection)
    (fuel : nat)
    (Hkids : forall n, In n (Nodes s) ->
             chain (nextOf doc) (FirstChild (doc n)) (kids n) = true
             /\ length (kids n) < fuel) :
  exists all,
    Contents doc fuel s = Ok (pushStack s all)
    /\ Children doc fuel s = Ok (pushStack s (filter (isElement doc) all))
    /\ all = keep_first (flat_map kids (Nodes s)).
Proof.
  destruct (children_walks doc kids (Nodes s) fuel Hkids) as [HA HE].
  exists (keep_first (flat_map kids (Nodes s))).
  unfold Contents, Children, pushed. now rewrite HA, HE.
Qed.

Lemma children_is_contents_filtered_witness :
  exists all,
    Contents sample 6 (mkSelection [1; 3] None None)
    = Ok (pushStack (mkSelection [1; 3] None None) all)
    /\ Children sample 6 (mkSelection [1; 3] None None)
       = Ok (pushStack (mkSelection [1; 3] None None)
               (filter (isElement sample) all))
    /\ all = [2; 3; 4; 5; 6; 7].
Proof.
  apply (children_is_contents_filtered sample sample_kids
           (mkSelection [1; 3] None None) 6).
  intros n [<-|[<-|[]]]; simpl; split; try reflexivity; lia.
Defined.

Lemma NoDup_flat_map_disjoint (kids : ptr -> list ptr) (nodes : list ptr) :
  NoDup nodes ->
  (forall n, In n nodes -> NoDup (kids n)) ->
  (forall n m x, In n nodes -> In m nodes -> In x (kids n) ->
                 In x (kids m) -> n = m) ->
  NoDup (flat_map kids nodes).
Proof.
  induction 1 as [|n rest Hn Hnd IH]; intros Hk Hd; simpl; [constructor|].
  apply NoDup_app.
  - apply Hk. now left.
  - apply IH.
    + intros m Hm. apply Hk. now right.
    + intros a b x Ha Hb. apply Hd; now right.
  - intros x Hx Hin. apply in_flat_map in Hin.
    destruct Hin as [m [Hm Hxm]].
    assert (n = m) by (apply (Hd n m x); simpl; auto).
    subst m. contradiction.
Qed.

(** X11.  In a tree where each source node has its children doubly
    linked below it, the children of different parents are different
    nodes, so for a duplicate-free selection the merge drops nothing:
    [getChildrenNodes] returns the child lists of the source nodes one
    after the other (all of them for Contents, the elements for
    Children). *)
Theorem children_of_distinct_parents_concatenate
    (doc : ptr -> Node) (kids : ptr -> list ptr) (nodes : list ptr)
    (fuel : nat)
    (Hnodup : NoDup nodes)
    (Hkids : forall n, In n nodes ->
             children_of doc n (kids n) = true /\ length (kids n) < fuel) :
  getChildrenNodes doc fuel nodes siblingAllIncludingNonElements
  = Ok (flat_map kids nodes)
  /\ getChildrenNodes doc fuel nodes siblingAll
     = Ok (flat_map (fun n => filter (isElement doc) (kids n)) nodes)
  /\ NoDup (flat_map kids nodes).
Proof.
  assert (Hall : NoDup (flat_map kids nodes)).
  { apply NoDup_flat_map_disjoint; [assumption| |].
    - intros n Hn. destruct (Hkids n Hn) as [Hc _].
      apply children_of_chain in Hc. eapply chain_NoDup. eassumption.
    - intros n m x Hn Hm Hxn Hxm.
      destruct (Hkids n Hn) as [Hcn _]. destruct (Hkids m Hm) as [Hcm _].
      pose proof (children_of_parent doc n (kids n) x Hcn Hxn) as E1.
      pose proof (children_of_parent doc m (kids m) x Hcm Hxm) as E2.
      congruence. }
  destruct (children_walks doc kids nodes fuel) as [HA HE].
  { intros n Hn. destruct (Hkids n Hn) as [Hc Hf].
    split; [now apply children_of_chain | exact Hf]. }
  rewrite HA, HE, (keep_first_NoDup _ Hall), flat_map_filter.
  repeat split. exact Hall.
Qed.

Lemma children_of_distinct_parents_concatenate_witness :
  getChildrenNodes sample 6 [3; 1] siblingAllIncludingNonElements
  = Ok [7; 2; 3; 4; 5; 6]
  /\ getChildrenNodes sample 6 [3; 1] siblingAll = Ok [7; 3; 5; 6]
  /\ NoDup [7; 2; 3; 4; 5; 6].
Proof.
  apply (children_of_distinct_parents_concatenate sample sample_kids
           [3; 1] 6).
  - repeat constructor; simpl; intuition discriminate.
  - intros n [<-|[<-|[]]]; simpl; split; try reflexivity; lia.
Defined.

(** ** Ancestors, again *)

(** X14.  For one source node with ancestor chain [anc]: what the
    ancestors walk with a stop condition returns is a prefix of what
    [Parents] returns; and [Parent] returns the head of [Parents] when
    the parent is an element, nothing when it is not, even if a higher
    ancestor is an element. *)
Theorem parents_until_is_prefix_of_parents
    (doc : ptr -> Node)
    (Is : Selection -> String.string -> res bool)
    (IsNodes : Selection -> list ptr -> res bool)
    (n : ptr) (stopSelector : String.string) (stopNodes : list ptr)
    (stop : ptr -> bool) (anc : list ptr) (fuel : nat)
    (Hchain : chain (parentOf doc) (Parent (doc n)) anc = true)
    (Htest : forall a, In a anc ->
             untilTest Is IsNodes stopSelector stopNodes a = Ok (stop a))
    (Hfuel : length anc < fuel) :
  exists rUntil rAll rest,
    getParentsNodes doc Is IsNodes fuel [n] stopSelector stopNodes = Ok rUntil
    /\ getParentsNodes doc Is IsNodes fuel [n] String.EmptyString [] = Ok rAll
    /\ rAll = rUntil ++ rest
    /\ rAll = filter (isElement doc) anc
    /\ getParentNodes doc [n] = Ok (element_parent doc n)
    /\ (forall p, Parent (doc n) = Some p ->
          element_parent doc n
          = if isElement doc p then firstn 1 rAll else []).
Proof.
  pose proof (chain_NoDup _ _ _ Hchain) as Hnd.
  destruct (takeUntil_split stop anc) as [rest [E _]].
  exists (filter (isElement doc) (takeUntil stop anc)),
         (filter (isElement doc) anc), (filter (isElement doc) rest).
  split; [|split; [|split; [|split; [reflexivity|split]]]].
  - unfold getParentsNodes. apply mapNodes_single.
    + intros _.
      now rewrite (getParentsNodes_loop_chain doc Is IsNodes stopSelector
                     stopNodes stop anc (Parent (doc n)) [] fuel Hchain
                     Htest Hfuel).
    + apply NoDup_filter. now apply NoDup_takeUntil.
  - unfold getParentsNodes. apply mapNodes_single.
    + intros _.
      rewrite (getParentsNodes_loop_chain doc Is IsNodes String.EmptyString
                 [] (fun _ => false) anc (Parent (doc n)) [] fuel Hchain);
        [|reflexivity|assumption].
      simpl. now rewrite takeUntil_none.
    + now apply NoDup_filter.
  - rewrite <- filter_app. now rewrite <- E.
  - unfold getParentNodes, element_parent, isElement.
    apply mapNodes_single.
    + intros _. destruct (Parent (doc n)) as [p|]; [|reflexivity].
      destruct (isElementNode (Type_ (doc p))); reflexivity.
    + destruct (Parent (doc n)) as [p|]; [|constructor].
      destruct (isElementNode (Type_ (doc p))); repeat constructor.
      intros [].
  - intros p Hp. unfold element_parent. rewrite Hp.
    destruct anc as [|a anc']; rewrite Hp in Hchain.
    + apply chain_nil in Hchain. discriminate.
    + apply chain_cons in Hchain. destruct Hchain as [Ea _].
      injection Ea as <-. simpl.
      destruct (isElement doc p); reflexivity.
Qed.

Lemma parents_until_is_prefix_of_parents_witness :
  exists rUntil rAll rest,
    getParentsNodes sample sample_Is sample_IsNodes 4 [7] "div"%string []
    = Ok rUntil
    /\ getParentsNodes sample sample_Is sample_IsNodes 4 [7]
         String.EmptyString [] = Ok rAll
    /\ rAll = rUntil ++ rest
    /\ rAll = [3; 1]
    /\ getParentNodes sample [7] = Ok [3]
    /\ (forall p, Parent (sample 7) = Some p ->
          [3] = if isElement sample p then firstn 1 rAll else []).
Proof.
  apply (parents_until_is_prefix_of_parents sample sample_Is sample_IsNodes 7
           "div"%string [] (Nat.eqb 1) [3; 1; 0] 4).
  - reflexivity.
  - intros a [<-|[<-|[<-|[]]]]; reflexivity.
  - simpl. lia.
Defined.

(** ** FindNodes *)


(** ** The singular walks and the nil fallback of the filtered
       UntilSelection operations *)

Lemma single_walk_length (doc : ptr -> Node) (fuel : nat)
    (parent : option ptr) (st : siblingType) (skipNode : option ptr)
    (untilFunc : option (ptr -> res bool)) (r : list ptr) :
  isSingle st = true ->
  getChildrenWithSiblingType doc fuel parent st skipNode untilFunc = Ok r ->
  length r <= 1.
Proof.
  intros Hs H. unfold getChildrenWithSiblingType in H.
  destruct (iter doc fuel parent st skipNode None) as [c| |];
    try discriminate.
  simpl in H. destruct fuel as [|fuel]; [discriminate|]. simpl in H.
  destruct c as [n|]; [|injection H as <-; simpl; lia].
  replace (isUntil st) with false in H by (destruct st; try discriminate;
                                           reflexivity).
  simpl in H. rewrite Hs in H. injection H as <-. simpl. lia.
Qed.

Lemma single_siblings_length (doc : ptr -> Node)
    (Is : Selection -> String.string -> res bool)
    (IsNodes : Selection -> list ptr -> res bool)
    (fuel : nat) (nodes : list ptr) (st : siblingType) (r : list ptr) :
  isSingle st = true ->
  getSiblingNodes doc Is IsNodes fuel nodes st String.EmptyString [] = Ok r ->
  length r <= length nodes.
Proof.
  intros Hs H. unfold getSiblingNodes, mapNodes in H.
  apply mapNodes_from_length in H; [simpl in H; lia|].
  intros k n vals Hv. eapply single_walk_length; eassumption.
Qed.

(** X17.  With a nil Selection, [NextFilteredUntilSelection] and
    [PrevFilteredUntilSelection] fall back to the singular [NextFiltered]
    and [PrevFiltered], not to the All walks that [NextUntilSelection]
    and [PrevUntilSelection] fall back to: with a [winnow] that only
    keeps nodes, they return at most one node per source node, and so do
    [Next] and [Prev]. *)
Theorem filtered_until_nil_is_singular
    (doc : ptr -> Node)
    (Is : Selection -> String.string -> res bool)
    (IsNodes : Selection -> list ptr -> res bool)
    (MustCompile : String.string -> res Selector)
    (winnow : Selection -> Selector -> bool -> list ptr)
    (fuel : nat) (s e : Selection) (filterSelector : String.string)
    (Hwinnow : forall sel cs, length (winnow sel cs true) <= length (Nodes sel))
    (Hret : NextFilteredUntilSelection doc Is IsNodes MustCompile winnow
              fuel s filterSelector None = Ok e
            \/ PrevFilteredUntilSelection doc Is IsNodes MustCompile winnow
                 fuel s filterSelector None = Ok e
            \/ Next doc Is IsNodes fuel s = Ok e
            \/ Prev doc Is IsNodes fuel s = Ok e) :
  length (Nodes e) <= length (Nodes s).
Proof.
  assert (Hf : forall st, isSingle st = true ->
            filterAndPush MustCompile winnow s
              (getSiblingNodes doc Is IsNodes fuel (Nodes s) st
                 String.EmptyString []) filterSelector = Ok e ->
            length (Nodes e) <= length (Nodes s)).
  { intros st Hs H. unfold filterAndPush in H.
    destruct (getSiblingNodes doc Is IsNodes fuel (Nodes s) st
                String.EmptyString []) as [r| |] eqn:Er; try discriminate.
    simpl in H. destruct (MustCompile filterSelector) as [cs| |];
      try discriminate.
    simpl in H. injection H as <-. simpl.
    pose proof (Hwinnow (mkSelection r (document s) None) cs) as Hw.
    simpl in Hw.
    pose proof (single_siblings_length doc Is IsNodes fuel (Nodes s) st r
                  Hs Er). lia. }
  assert (Hp : forall st, isSingle st = true ->
            pushed s (getSiblingNodes doc Is IsNodes fuel (Nodes s) st
                        String.EmptyString []) = Ok e ->
            length (Nodes e) <= length (Nodes s)).
  { intros st Hs H. unfold pushed in H.
    destruct (getSiblingNodes doc Is IsNodes fuel (Nodes s) st
                String.EmptyString []) as [r| |] eqn:Er; try discriminate.
    simpl in H. injection H as <-. simpl.
    eapply single_siblings_length; eassumption. }
  destruct Hret as [H|[H|[H|H]]].
  - exact (Hf siblingNext eq_refl H).
  - exact (Hf siblingPrev eq_refl H).
  - exact (Hp siblingNext eq_refl H).
  - exact (Hp siblingPrev eq_refl H).
Qed.

(** From the comment of the sample document, with a filter that keeps
    every element: the nil fallback returns the p alone, where
    [NextAll] returns the p, the span and the em. *)
Lemma filtered_until_nil_is_singular_witness :
  NextFilteredUntilSelection sample sample_Is sample_IsNodes
    sample_MustCompile sample_winnow 5 (mkSelection [2] None None)
    "*"%string None
  = Ok (pushStack (mkSelection [2] None None) [3])
  /\ length [3] <= length [2].
Proof.
  split; [reflexivity|].
  apply (filtered_until_nil_is_singular sample sample_Is sample_IsNodes
           sample_MustCompile sample_winnow 5 (mkSelection [2] None None)
           (pushStack (mkSelection [2] None None) [3]) "*"%string).
  - intros sel cs. apply filter_length_le.
  - left. reflexivity.
Defined.

(** ** The empty selection and the order of selector compilation *)

(** X13.  On a Selection without nodes every traversal returns the
    empty Selection pushed on the receiver, at any fuel and without
    reading the tree; the Until operations do so whatever their
    selector, since the stop selector is only compiled when a candidate
    is tested.  [Find] and [Closest] compile their selector first and
    [ChildrenFiltered] compiles its filter after the traversal: on the
    empty Selection their outcome is the outcome of the compilation,
    and [Find] and [Closest] panic on every Selection when it panics. *)
Theorem empty_selection_and_compile_order
    (doc : ptr -> Node)
    (Is : Selection -> String.string -> res bool)
    (IsNodes : Selection -> list ptr -> res bool)
    (MustCompile : String.string -> res Selector)
    (MatchAll : Selector -> ptr -> list ptr)
    (winnow : Selection -> Selector -> bool -> list ptr)
    (fuel : nat) (s : Selection) (selector : String.string)
    (nodes : list ptr)
    (Hempty : Nodes s = []) :
  (Contents doc fuel s = Ok (pushStack s [])
   /\ Children doc fuel s = Ok (pushStack s [])
   /\ Parent_ doc s = Ok (pushStack s [])
   /\ Parents doc Is IsNodes fuel s = Ok (pushStack s [])
   /\ Siblings doc Is IsNodes fuel s = Ok (pushStack s [])
   /\ Next doc Is IsNodes fuel s = Ok (pushStack s [])
   /\ NextAll doc Is IsNodes fuel s = Ok (pushStack s [])
   /\ Prev doc Is IsNodes fuel s = Ok (pushStack s [])
   /\ PrevAll doc Is IsNodes fuel s = Ok (pushStack s [])
   /\ ClosestNodes doc fuel s nodes = Ok (pushStack s []))
  /\ (ParentsUntil doc Is IsNodes fuel s selector = Ok (pushStack s [])
      /\ ParentsUntilNodes doc Is IsNodes fuel s nodes = Ok (pushStack s [])
      /\ NextUntil doc Is IsNodes fuel s selector = Ok (pushStack s [])
      /\ NextUntilNodes doc Is IsNodes fuel s nodes = Ok (pushStack s [])
      /\ PrevUntil doc Is IsNodes fuel s selector = Ok (pushStack s [])
      /\ PrevUntilNodes doc Is IsNodes fuel s nodes = Ok (pushStack s []))
  /\ (Find doc MustCompile MatchAll fuel s selector
      = (_ <- MustCompile selector ;; Ok (pushStack s []))
      /\ Closest doc MustCompile fuel s selector
         = (_ <- MustCompile selector ;; Ok (pushStack s []))
      /\ ChildrenFiltered doc MustCompile winnow fuel s selector
         = (cs <- MustCompile selector ;;
            Ok (pushStack s
                  (winnow (mkSelection [] (document s) None) cs true))))
  /\ (MustCompile selector = Panic ->
      forall s',
        Find doc MustCompile MatchAll fuel s' selector = Panic
        /\ Closest doc MustCompile fuel s' selector = Panic).
Proof.
  split; [|split; [|split]].
  - unfold Contents, Children, Parent_, Parents, Siblings, Next, NextAll,
      Prev, PrevAll, ClosestNodes, getChildrenNodes, getParentNodes,
      getParentsNodes, getSiblingNodes.
    rewrite Hempty. repeat split.
  - unfold ParentsUntil, ParentsUntilNodes, NextUntil, NextUntilNodes,
      PrevUntil, PrevUntilNodes, getParentsNodes, getSiblingNodes.
    rewrite Hempty. repeat split.
  - unfold Find, Closest, ChildrenFiltered, filterAndPush, findWithSelector,
      getChildrenNodes.
    rewrite Hempty. simpl.
    repeat split; destruct (MustCompile selector); reflexivity.
  - intros Hp s'. unfold Find, Closest, findWithSelector.
    rewrite Hp. split; reflexivity.
Qed.

Lemma empty_selection_and_compile_order_witness :
  NextUntil sample sample_Is sample_IsNodes 0 (mkSelection [] None None)
    "p >"%string
  = Ok (pushStack (mkSelection [] None None) [])
  /\ Find sample sample_MustCompile sample_MatchAll 0
       (mkSelection [] None None) "p >"%string = Panic.
Proof.
  destruct (empty_selection_and_compile_order sample sample_Is sample_IsNodes
              sample_MustCompile sample_MatchAll sample_winnow 0
              (mkSelection [] None None) "p >"%string [] eq_refl)
    as [_ [[_ [_ [Hnext _]]] [_ Hpanic]]].
  split; [exact Hnext|].
  exact (proj1 (Hpanic eq_refl (mkSelection [] None None))).
Defined.

(** Siblings of the p, the document node and the span: the walk for the
    document node panics on its nil parent and the merge panics. *)
Lemma mapNodes_propagates_first_failure_witness :
  mapNodes ([3] ++ 0 :: [5])
    (fun _ n => getChildrenWithSiblingType sample 6 (Parent (sample n))
                  siblingAll (Some n) None)
  = Panic.
Proof.
  apply (mapNodes_propagates_first_failure
           (fun _ n => getChildrenWithSiblingType sample 6 (Parent (sample n))
                         siblingAll (Some n) None)
           [3] 0 [5]).
  - intros [|i] m H; simpl in H.
    + injection H as <-. now exists [5; 6].
    + destruct i; discriminate.
  - intros vals H. discriminate H.
Defined.

(** ** Source nodes that share their results *)

Lemma keep_first_absorb (a b : list ptr) :
  NoDup a -> (forall x, In x b -> In x a) -> keep_first (a ++ b) = a.
Proof.
  intros Ha Hb. rewrite keep_first_app, (keep_first_NoDup a Ha).
  replace (filter (fun y => negb (isInSlice a y)) b) with (@nil ptr).
  - apply app_nil_r.
  - symmetry. induction b as [|y b IH]; simpl; [reflexivity|].
    assert (Hy : isInSlice a y = true)
      by (apply isInSlice_In, Hb; now left).
    rewrite Hy. simpl. apply IH. intros x Hx. apply Hb. now right.
Qed.

Lemma keep_first_repeat (r : ptr -> list ptr) (r0 : list ptr)
    (n : ptr) (rest : list ptr) :
  NoDup r0 -> r n = r0 -> (forall m, In m rest -> r m = r0) ->
  keep_first (flat_map r (n :: rest)) = r0.
Proof.
  intros Hnd Hn Hrest. simpl. rewrite Hn. apply keep_first_absorb; [exact Hnd|].
  intros x Hx. apply in_flat_map in Hx. destruct Hx as [m [Hm Hx]].
  now rewrite (Hrest m Hm) in Hx.
Qed.

(** X18.  Source nodes with the same parent have the same ancestors:
    for a selection of nodes that all have the parent of the first one,
    the ancestors walk (with or without a stop condition) returns what
    it returns for the first node alone. *)
Theorem parents_of_siblings_are_parents_of_one
    (doc : ptr -> Node)
    (Is : Selection -> String.string -> res bool)
    (IsNodes : Selection -> list ptr -> res bool)
    (n : ptr) (rest : list ptr)
    (stopSelector : String.string) (stopNodes : list ptr)
    (stop : ptr -> bool) (anc : list ptr) (fuel : nat)
    (Hsame : forall m, In m rest -> Parent (doc m) = Parent (doc n))
    (Hchain : chain (parentOf doc) (Parent (doc n)) anc = true)
    (Htest : forall a, In a anc ->
             untilTest Is IsNodes stopSelector stopNodes a = Ok (stop a))
    (Hfuel : length anc < fuel) :
  getParentsNodes doc Is IsNodes fuel (n :: rest) stopSelector stopNodes
  = Ok (filter (isElement doc) (takeUntil stop anc))
  /\ getParentsNodes doc Is IsNodes fuel (n :: rest) stopSelector stopNodes
     = getParentsNodes doc Is IsNodes fuel [n] stopSelector stopNodes.
Proof.
  pose proof (chain_NoDup _ _ _ Hchain) as Hnd.
  pose proof (getParentsNodes_loop_chain doc Is IsNodes stopSelector
                stopNodes stop anc (Parent (doc n)) [] fuel Hchain Htest
                Hfuel) as Hloop.
  simpl in Hloop.
  assert (Hr : NoDup (filter (isElement doc) (takeUntil stop anc)))
    by (apply NoDup_filter; now apply NoDup_takeUntil).
  assert (Hall : getParentsNodes doc Is IsNodes fuel (n :: rest)
                   stopSelector stopNodes
                 = Ok (filter (isElement doc) (takeUntil stop anc))).
  { unfold getParentsNodes.
    rewrite (mapNodes_pure (n :: rest) _
               (fun _ => filter (isElement doc) (takeUntil stop anc))).
    - now rewrite (keep_first_repeat _ _ n rest Hr eq_refl).
    - intros _ m [<-|Hm]; [exact Hloop|]. now rewrite (Hsame m Hm). }
  split; [exact Hall|]. rewrite Hall. symmetry.
  unfold getParentsNodes. apply mapNodes_single; [|exact Hr].
  intros _. exact Hloop.
Qed.

Lemma parents_of_siblings_are_parents_of_one_witness :
  getParentsNodes sample sample_Is sample_IsNodes 3 [3; 4; 6]
    String.EmptyString [0]
  = Ok [1]
  /\ getParentsNodes sample sample_Is sample_IsNodes 3 [3; 4; 6]
       String.EmptyString [0]
     = getParentsNodes sample sample_Is sample_IsNodes 3 [3]
         String.EmptyString [0].
Proof.
  apply (parents_of_siblings_are_parents_of_one sample sample_Is
           sample_IsNodes 3 [4; 6] String.EmptyString [0] (Nat.eqb 0)
           [1; 0] 3).
  - intros m [<-|[<-|[]]]; reflexivity.
  - reflexivity.
  - intros a [<-|[<-|[]]]; reflexivity.
  - simpl. lia.
Defined.

(** X19.  [NextAll] (and [PrevAll]) of a node together with a sibling
    that lies further in the walk direction is the walk of the first
    node alone: what is reached from the second is reached from the
    first, and is dropped by the merge. *)
Theorem all_walk_absorbs_later_sibling
    (doc : ptr -> Node)
    (Is : Selection -> String.string -> res bool)
    (IsNodes : Selection -> list ptr -> res bool)
    (d : direction) (a b : ptr) (between beyond : list ptr) (fuel : nat)
    (Hchain : walked doc (Parent (doc a)) (allOf d) a
                (between ++ b :: beyond) = true)
    (Hfuel : length (between ++ b :: beyond) < fuel) :
  getSiblingNodes doc Is IsNodes fuel [a; b] (allOf d) String.EmptyString []
  = Ok (filter (isElement doc) (between ++ b :: beyond))
  /\ getSiblingNodes doc Is IsNodes fuel [a; b] (allOf d)
       String.EmptyString []
     = getSiblingNodes doc Is IsNodes fuel [a] (allOf d)
         String.EmptyString [].
Proof.
  assert (Hc : chain (dirLink doc (allOf d)) (dirLink doc (allOf d) a)
                 (between ++ b :: beyond) = true)
    by (destruct d; exact Hchain).
  pose proof (chain_NoDup _ _ _ Hc) as Hnd.
  assert (Hcb : chain (dirLink doc (allOf d)) (dirLink doc (allOf d) b)
                  beyond = true).
  { destruct (chain_suffix _ _ _ _ Hc) as [s' Hs].
    apply chain_cons in Hs. tauto. }
  assert (Hwb : walked doc (Parent (doc b)) (allOf d) b beyond = true)
    by (destruct d; exact Hcb).
  rewrite length_app in Hfuel. simpl in Hfuel.
  assert (Ha : getChildrenWithSiblingType doc fuel (Parent (doc a)) (allOf d)
                 (Some a) None
               = Ok (filter (isElement doc) (between ++ b :: beyond))).
  { rewrite (walk_walked doc (Parent (doc a)) (allOf d) a None
               (fun _ => false) _ fuel Hchain).
    - rewrite walk_result_eq. destruct d; reflexivity.
    - destruct d; intros Hu; discriminate.
    - rewrite length_app. simpl. lia. }
  assert (Hb : getChildrenWithSiblingType doc fuel (Parent (doc b)) (allOf d)
                 (Some b) None
               = Ok (filter (isElement doc) beyond)).
  { rewrite (walk_walked doc (Parent (doc b)) (allOf d) b None
               (fun _ => false) _ fuel Hwb).
    - rewrite walk_result_eq. destruct d; reflexivity.
    - destruct d; intros Hu; discriminate.
    - lia. }
  assert (Hall : getSiblingNodes doc Is IsNodes fuel [a; b] (allOf d)
                   String.EmptyString []
                 = Ok (filter (isElement doc) (between ++ b :: beyond))).
  { unfold getSiblingNodes.
    replace (if isUntil (allOf d)
             then Some (untilTest Is IsNodes String.EmptyString [])
             else None) with (@None (ptr -> res bool))
      by (destruct d; reflexivity).
    rewrite (mapNodes_pure [a; b] _
               (fun n => if Nat.eqb n a
                         then filter (isElement doc) (between ++ b :: beyond)
                         else filter (isElement doc) beyond)).
    - simpl. rewrite Nat.eqb_refl, app_nil_r. f_equal.
      apply keep_first_absorb; [now apply NoDup_filter|].
      intros x Hx. destruct (Nat.eqb b a); [exact Hx|].
      apply filter_In in Hx. destruct Hx as [Hx He].
      apply filter_In. split; [|exact He].
      apply in_or_app. right. now right.
    - intros _ n [<-|[<-|[]]].
      + now rewrite Nat.eqb_refl.
      + destruct (Nat.eqb b a) eqn:E; [|exact Hb].
        apply Nat.eqb_eq in E. subst b. exfalso.
        apply (chain_notin _ _ _ Hc). apply in_or_app. right. now left. }
  split; [exact Hall|]. rewrite Hall. symmetry.
  unfold getSiblingNodes.
  replace (if isUntil (allOf d)
           then Some (untilTest Is IsNodes String.EmptyString [])
           else None) with (@None (ptr -> res bool))
    by (destruct d; reflexivity).
  apply mapNodes_single; [intros _; exact Ha | now apply NoDup_filter].
Qed.

Lemma all_walk_absorbs_later_sibling_witness :
  getSiblingNodes sample sample_Is sample_IsNodes 5 [3; 5] siblingNextAll
    String.EmptyString []
  = Ok [5; 6]
  /\ getSiblingNodes sample sample_Is sample_IsNodes 5 [3; 5] siblingNextAll
       String.EmptyString []
     = getSiblingNodes sample sample_Is sample_IsNodes 5 [3] siblingNextAll
         String.EmptyString [].
Proof.
  apply (all_walk_absorbs_later_sibling sample sample_Is sample_IsNodes
           Forward 3 5 [4] [6] 5).
  - reflexivity.
  - simpl. lia.
Defined.
